(** * Easemob push client: rate limiter, token cache and lifecycle

    A shallow embedding of [easemob.go] and of [RefreshToken] (token file)
    of the Easemob Go SDK.  The Go objects that the client shares between
    goroutines (the permit channel, the reset tickers) live in an explicit
    heap; the background goroutine [limiter] is a small-step machine whose
    program counter is part of the state, and every blocking operation of
    a caller returns an [outcome] that says whether the call returned,
    parked, or panicked. *)

From stdpp Require Import base numbers list strings relations.
From Stdlib Require Import ZArith Lia.

Local Open Scope Z_scope.

(** ** Go values *)

(** A Go [error] is represented by its [Error()] text; wrapping with
    [fmt.Errorf("...: %w", e)] prepends the prefix. *)
Definition error := string.

(** [context.Context] as seen by one [select]: [None] while [ctx.Done()]
    is still open, [Some e] once it is closed, [e] being [ctx.Err()]. *)
Definition context := option error.

Definition Canceled : error := "context canceled".
Definition DeadlineExceeded : error := "context deadline exceeded".

(** [time.Duration]: signed 64-bit nanoseconds. *)
Definition Nanosecond : Z := 1.
Definition Second : Z := 1000000000.

(** two's-complement wrap-around of int64 arithmetic *)
Definition wrap64 (z : Z) : Z := (z + 2 ^ 63) mod 2 ^ 64 - 2 ^ 63.

(** [time.Duration(n) * time.Second] *)
Definition seconds (n : Z) : Z := wrap64 (n * Second).

(** [time.Time] is an instant on the time line, in nanoseconds since the
    zero [Time]; [Before] and [Add] are order and translation. *)
Definition Time := Z.
Definition zeroTime : Time := 0.
Definition Before (t u : Time) : bool := t <? u.
Definition Add (t : Time) (d : Z) : Time := t + d.

(** ** Channels and tickers on the heap *)

(** [chan bool]: only [true] is ever sent, so the buffer is its length. *)
Record chan := Chan { ch_cap : nat; ch_len : nat; ch_closed : bool }.

(** [*time.Ticker]: its period, whether [Stop] was called, and whether a
    tick sits in the one-slot channel [C]. *)
Record ticker := Ticker { tk_period : Z; tk_stopped : bool; tk_pending : bool }.

(** Modelled from the spec: [ureq.Client] (package [uw/ureq] is not part of
    the sources) is a transport template with a configurable timeout that
    can be cloned and given per-call headers. *)
Record Client := mkClient { cl_timeout : Z; cl_headers : list (string * string) }.

Definition ureq_New : Client := mkClient 0 [].
Definition Clone (c : Client) : Client := mkClient (cl_timeout c) (cl_headers c).
Definition Set_ (k v : string) (c : Client) : Client :=
  mkClient (cl_timeout c) ((k, v) :: cl_headers c).
Definition Timeout (d : Z) (c : Client) : Client := mkClient d (cl_headers c).

(** ** The client *)

Record Easemob := mkEasemob {
  client : Client;
  host : string;                 (* baseURL = https://host *)
  orgName : string;
  appName : string;
  clientId : string;
  clientSecret : string;
  accessToken : string;
  accessTokenExpiresAt : Time;
  limiterResetTicker : nat;      (* *time.Ticker, a heap address *)
  limiterChan : nat              (* chan bool, a heap address *)
}.

(** Program counter of the goroutine running [eb.limiter()]. *)
Inductive loop_pc :=
| LTop                        (* about to enter the select *)
| LSelect (tk : nat)          (* parked in the select, ticker [tk] captured *)
| LCheck (i : nat)            (* evaluating [i < cap(eb.limiterChan)] *)
| LRecv (i : nat)             (* evaluating the operand of [<-eb.limiterChan] *)
| LRecvOn (i : nat) (c : nat) (* receiving from channel [c] *)
| LExit.                      (* returned *)

Inductive event :=
| EvRefreshToken (ttl : Z)    (* RefreshToken was entered *)
| EvPost.                     (* the token request was sent *)

Record World := mkWorld {
  eb : Easemob;
  chans : list chan;
  tickers : list ticker;
  loop : loop_pc;
  closing : bool;     (* Close holds mu and is parked on [eb.exitCh <- struct{}{}] *)
  trace : list event  (* ghost: calls made so far, oldest first *)
}.

Definition set_eb (e : Easemob) (w : World) : World :=
  mkWorld e (chans w) (tickers w) (loop w) (closing w) (trace w).
Definition set_chans (cs : list chan) (w : World) : World :=
  mkWorld (eb w) cs (tickers w) (loop w) (closing w) (trace w).
Definition set_tickers (ts : list ticker) (w : World) : World :=
  mkWorld (eb w) (chans w) ts (loop w) (closing w) (trace w).
Definition set_loop (pc : loop_pc) (w : World) : World :=
  mkWorld (eb w) (chans w) (tickers w) pc (closing w) (trace w).
Definition set_closing (b : bool) (w : World) : World :=
  mkWorld (eb w) (chans w) (tickers w) (loop w) b (trace w).
Definition log (ev : event) (w : World) : World :=
  mkWorld (eb w) (chans w) (tickers w) (loop w) (closing w) (trace w ++ [ev]).

Definition set_limiter (tk c : nat) (e : Easemob) : Easemob :=
  mkEasemob (client e) (host e) (orgName e) (appName e) (clientId e)
    (clientSecret e) (accessToken e) (accessTokenExpiresAt e) tk c.
Definition set_token (tok : string) (exp : Time) (e : Easemob) : Easemob :=
  mkEasemob (client e) (host e) (orgName e) (appName e) (clientId e)
    (clientSecret e) tok exp (limiterResetTicker e) (limiterChan e).
Definition set_client (c : Client) (e : Easemob) : Easemob :=
  mkEasemob c (host e) (orgName e) (appName e) (clientId e)
    (clientSecret e) (accessToken e) (accessTokenExpiresAt e)
    (limiterResetTicker e) (limiterChan e).

(** Heap reads.  An address outside the heap stands for a nil channel or
    a nil ticker; the client built by [NewEasemob] never holds one. *)
Definition chan_at (c : nat) (w : World) : chan :=
  default (Chan 0 0 false) (chans w !! c).
Definition ticker_at (tk : nat) (w : World) : ticker :=
  default (Ticker 0 true false) (tickers w !! tk).

(** occupancy of the permit pool: [len(eb.limiterChan)] *)
Definition occupancy (w : World) : nat := ch_len (chan_at (limiterChan (eb w)) w).
(** [cap(eb.limiterChan)] *)
Definition capacity (w : World) : nat := ch_cap (chan_at (limiterChan (eb w)) w).

(** ** Outcome of a call *)

Inductive outcome (A : Type) :=
| Ok (a : A) (w : World)            (* returned a value and a nil error *)
| Err (e : error) (w : World)       (* returned a non-nil error *)
| Blocked (w : World)               (* parked; somebody else has to move *)
| Panic (msg : string) (w : World). (* run-time panic *)
Arguments Ok {A} a w.
Arguments Err {A} e w.
Arguments Blocked {A} w.
Arguments Panic {A} msg w.

Definition world_of {A} (o : outcome A) : World :=
  match o with Ok _ w | Err _ w | Blocked w | Panic _ w => w end.

(** ** Channel operations *)

(** Is the reset goroutine receiving on [c] right now? *)
Definition receiver_on (c : nat) (w : World) : bool :=
  match loop w with
  | LRecvOn _ c' => Nat.eqb c c'
  | _ => false
  end.

(** Can [c <- true] proceed?  On a closed channel it proceeds by
    panicking; on a buffered one when there is room; on an unbuffered one
    when a receiver is ready; on a nil channel never. *)
Definition send_ready (c : nat) (w : World) : bool :=
  match chans w !! c with
  | None => false
  | Some ch =>
      ch_closed ch
      || (if Nat.eqb (ch_cap ch) 0 then receiver_on c w
          else Nat.ltb (ch_len ch) (ch_cap ch))
  end.

(** [c <- true], once it can proceed.  On a buffered channel the value
    goes into the buffer; when the goroutine is parked on a receive from
    that channel, Go passes the value to it directly, which is the deposit
    followed by the step of the goroutine that takes it.  Statements about
    the occupancy right after a send therefore say where the goroutine
    is. *)
Definition chan_send (c : nat) (w : World) : outcome unit :=
  match chans w !! c with
  | None => Blocked w
  | Some ch =>
      if ch_closed ch then Panic "send on closed channel" w
      else if Nat.eqb (ch_cap ch) 0 then
        match loop w with
        | LRecvOn i c' =>
            if Nat.eqb c c' then Ok tt (set_loop (LCheck (S i)) w) else Blocked w
        | _ => Blocked w
        end
      else
        Ok tt (set_chans (<[c := Chan (ch_cap ch) (S (ch_len ch)) false]> (chans w)) w)
  end.

(** [<-c]: takes a buffered value if there is one, yields the zero value
    at once on a closed empty channel, parks otherwise ([None]). *)
Definition chan_recv (c : nat) (w : World) : option World :=
  match chans w !! c with
  | None => None
  | Some ch =>
      match ch_len ch with
      | S n => Some (set_chans (<[c := Chan (ch_cap ch) n (ch_closed ch)]> (chans w)) w)
      | O => if ch_closed ch then Some w else None
      end
  end.

(** ** The limiter *)

(** [getLimiter] after [eb.limiterChan] has been evaluated to [c]: one
    [select] over the send and [ctx.Done()].  [pick] is the run-time's
    choice when both cases can proceed ([true]: the send). *)
Definition getLimiter_on (c : nat) (ctx : context) (pick : bool) (w : World)
  : outcome unit :=
  match send_ready c w, ctx with
  | true, None => chan_send c w
  | true, Some e => if pick then chan_send c w else Err e w
  | false, Some e => Err e w
  | false, None => Blocked w
  end.

Definition getLimiter (ctx : context) (pick : bool) (w : World) : outcome unit :=
  getLimiter_on (limiterChan (eb w)) ctx pick w.

(** A ticker fires: the tick is queued in [C] unless the ticker was
    stopped; a tick that finds [C] full is dropped. *)
Definition tick (tk : nat) (w : World) : World :=
  match tickers w !! tk with
  | None => w
  | Some t =>
      if tk_stopped t then w
      else set_tickers (<[tk := Ticker (tk_period t) false true]> (tickers w)) w
  end.

(** One step of the goroutine [eb.limiter()]; [None] when it is parked or
    has returned.  [pick] chooses between the two cases of the select when
    both are ready ([true]: the tick).  The only panic the loop can raise
    is the dereference of a nil ticker; the deferred [recover] swallows it
    and the goroutine returns. *)
Definition limiter_step (pick : bool) (w : World) : option World :=
  match loop w with
  | LTop =>
      match tickers w !! limiterResetTicker (eb w) with
      | None => Some (set_loop LExit w)
      | Some _ => Some (set_loop (LSelect (limiterResetTicker (eb w))) w)
      end
  | LSelect tk =>
      let t := ticker_at tk w in
      let take_tick :=
        set_loop (LCheck 0)
          (set_tickers (<[tk := Ticker (tk_period t) (tk_stopped t) false]> (tickers w)) w) in
      let take_exit := set_loop LExit (set_closing false w) in
      match tk_pending t, closing w with
      | true, true => Some (if pick then take_tick else take_exit)
      | true, false => Some take_tick
      | false, true => Some take_exit
      | false, false => None
      end
  | LCheck i =>
      if Nat.ltb i (capacity w) then Some (set_loop (LRecv i) w)
      else Some (set_loop LTop w)
  | LRecv i => Some (set_loop (LRecvOn i (limiterChan (eb w))) w)
  | LRecvOn i c =>
      match chan_recv c w with
      | Some w' => Some (set_loop (LCheck (S i)) w')
      | None => None
      end
  | LExit => None
  end.

(** Run the goroutine for at most [n] steps, or until it parks or returns;
    it takes the tick when both cases of its select are ready. *)
Fixpoint limiter_run (n : nat) (w : World) : World :=
  match n with
  | O => w
  | S n' => match limiter_step true w with
            | Some w' => limiter_run n' w'
            | None => w
            end
  end.

(** ** Lifecycle *)

Definition NewEasemob (host orgName appName clientId clientSecret : string)
  : World + error :=
  if (String.length host <? 1)%nat || (String.length orgName <? 1)%nat
     || (String.length appName <? 1)%nat || (String.length clientId <? 1)%nat
     || (String.length clientSecret <? 1)%nat
  then inr "invalid params"
  else inl (mkWorld
              (mkEasemob ureq_New host orgName appName clientId clientSecret
                 EmptyString zeroTime 0%nat 0%nat)
              [Chan 1 0 false]
              [Ticker Second false false]
              LTop      (* go eb.limiter() *)
              false
              []).

(** [SetLimiter]: [time.NewTicker] panics on a non-positive interval; the
    previous ticker and channel stay on the heap as they are. *)
Definition SetLimiter (rate : nat) (interval : Z) (w : World) : outcome unit :=
  if closing w then Blocked w
  else if interval <=? 0 then Panic "non-positive interval for NewTicker" w
  else
    let tk := length (tickers w) in
    let c := length (chans w) in
    Ok tt (set_eb (set_limiter tk c (eb w))
             (set_chans (chans w ++ [Chan rate 0 false])
                (set_tickers (tickers w ++ [Ticker interval false false]) w))).

(** [Close] up to its last statement, as one move: [closing] is the state
    in which the ticker is stopped, the pool is closed and the caller is
    parked, with [mu] held, on the send to the unbuffered [exitCh], until
    the goroutine takes the exit case of its select ([limiter_step] then
    clears [closing]).  The moments between the [Lock] and the [close], in
    which [mu] is held and the pool still open, are not states of their
    own. *)
Definition Close (w : World) : outcome unit :=
  if closing w then Blocked w
  else
    let tk := limiterResetTicker (eb w) in
    match tickers w !! tk with
    | None => Panic "runtime error: invalid memory address or nil pointer dereference" w
    | Some t =>
        let w1 :=
          set_tickers (<[tk := Ticker (tk_period t) true (tk_pending t)]> (tickers w)) w in
        let c := limiterChan (eb w1) in
        match chans w1 !! c with
        | None => Panic "close of nil channel" w1
        | Some ch =>
            if ch_closed ch then Panic "close of closed channel" w1
            else
              Blocked (set_closing true
                         (set_chans (<[c := Chan (ch_cap ch) (ch_len ch) true]> (chans w1))
                            w1))
        end
    end.

Definition SetClientTimeout (timeout : Z) (w : World) : outcome unit :=
  if closing w then Blocked w
  else Ok tt (set_eb (set_client (Timeout timeout (client (eb w))) (eb w)) w).

Definition GetBaseClient (ctx : context) (pick : bool) (w : World) : outcome Client :=
  match getLimiter ctx pick w with
  | Err e w1 => Err e w1
  | Blocked w1 => Blocked w1
  | Panic m w1 => Panic m w1
  | Ok _ w1 =>
      if closing w1 then Blocked w1      (* eb.mu.RLock() *)
      else Ok (Clone (client (eb w1))) w1
  end.

(** ** Go's [unicode/utf8], [unicode] and [strings], as far as
    [strings.TrimSpace] needs them.  Strings are byte sequences. *)

Module utf8.
Definition RuneError : N := 0xFFFD.
Definition RuneSelf : N := 0x80.
Definition UTFMax : nat := 4.

(** the tables [first] and [acceptRanges]: for a leading byte, the
    length of the sequence and the range accepted for its second byte *)
Definition first (b : N) : option (nat * N * N) :=
  (if b <? 0xC2 then None
   else if b <=? 0xDF then Some (2%nat, 0x80, 0xBF)
   else if b =? 0xE0 then Some (3%nat, 0xA0, 0xBF)
   else if b <=? 0xEC then Some (3%nat, 0x80, 0xBF)
   else if b =? 0xED then Some (3%nat, 0x80, 0x9F)
   else if b <=? 0xEF then Some (3%nat, 0x80, 0xBF)
   else if b =? 0xF0 then Some (4%nat, 0x90, 0xBF)
   else if b <=? 0xF3 then Some (4%nat, 0x80, 0xBF)
   else if b =? 0xF4 then Some (4%nat, 0x80, 0x8F)
   else None)%N.

Definition outside (lo hi b : N) : bool := ((b <? lo) || (hi <? b))%N.
Definition low6 (b : N) : N := N.land b 0x3F.

Definition byte_at (s : list N) (i : nat) : N := default 0%N (s !! i).

(** [utf8.DecodeRuneInString]: the first rune and its width *)
Definition DecodeRune (s : list N) : N * nat :=
  let n := length s in
  if Nat.ltb n 1 then (RuneError, 0%nat)
  else
    let s0 := byte_at s 0 in
    if (s0 <? RuneSelf)%N then (s0, 1%nat)
    else
      match first s0 with
      | None => (RuneError, 1%nat)
      | Some (sz, lo, hi) =>
          if Nat.ltb n sz then (RuneError, 1%nat)
          else
            let s1 := byte_at s 1 in
            if outside lo hi s1 then (RuneError, 1%nat)
            else if Nat.leb sz 2 then
              (N.lor (N.shiftl (N.land s0 0x1F) 6) (low6 s1), 2%nat)
            else
              let s2 := byte_at s 2 in
              if outside 0x80 0xBF s2 then (RuneError, 1%nat)
              else if Nat.leb sz 3 then
                (N.lor (N.shiftl (N.land s0 0x0F) 12)
                   (N.lor (N.shiftl (low6 s1) 6) (low6 s2)), 3%nat)
              else
                let s3 := byte_at s 3 in
                if outside 0x80 0xBF s3 then (RuneError, 1%nat)
                else
                  (N.lor (N.shiftl (N.land s0 0x07) 18)
                     (N.lor (N.shiftl (low6 s1) 12)
                        (N.lor (N.shiftl (low6 s2) 6) (low6 s3))), 4%nat)
      end.

(** [utf8.RuneStart] *)
Definition RuneStart (b : N) : bool := negb (N.land b 0xC0 =? 0x80)%N.

(** the backward scan of [DecodeLastRuneInString]: from index [start],
    going down to [lim], the first index that holds a rune start; the
    loop leaves [lim - 1] behind when there is none *)
Fixpoint scan_back (s : list N) (lim : Z) (n : nat) (start : Z) : Z :=
  match n with
  | O => start
  | S n' =>
      if (start <? lim)%Z then start
      else if RuneStart (byte_at s (Z.to_nat start)) then start
      else scan_back s lim n' (start - 1)%Z
  end.

(** [utf8.DecodeLastRuneInString] *)
Definition DecodeLastRune (s : list N) : N * nat :=
  let end_ := Z.of_nat (length s) in
  if (end_ =? 0)%Z then (RuneError, 0%nat)
  else
    let r := byte_at s (Z.to_nat (end_ - 1)) in
    if (r <? RuneSelf)%N then (r, 1%nat)
    else
      let lim := Z.max 0 (end_ - Z.of_nat UTFMax) in
      let start := Z.max 0 (scan_back s lim (S UTFMax) (end_ - 2)) in
      let '(r, size) := DecodeRune (drop (Z.to_nat start) s) in
      if (start + Z.of_nat size =? end_)%Z then (r, size) else (RuneError, 1%nat).
End utf8.

Module unicode.
(** [unicode.IsSpace]: the Latin-1 cases and the [White_Space] table *)
Definition IsSpace (r : N) : bool :=
  (if r <=? 0xFF then
     ((0x09 <=? r) && (r <=? 0x0D)) || (r =? 0x20) || (r =? 0x85) || (r =? 0xA0)
   else
     (r =? 0x1680) || ((0x2000 <=? r) && (r <=? 0x200A)) || (r =? 0x2028)
     || (r =? 0x2029) || (r =? 0x202F) || (r =? 0x205F) || (r =? 0x3000))%N.
End unicode.

Module strings.
Definition asciiSpace (c : N) : bool :=
  ((c =? 0x09) || (c =? 0x0A) || (c =? 0x0B) || (c =? 0x0C) || (c =? 0x0D)
   || (c =? 0x20))%N.

(** [indexFunc(s, unicode.IsSpace, false)]: byte index of the first rune
    that is not a space; [None] stands for -1.  The range loop decodes
    one rune per turn; [i] is the index of [s] in the whole string. *)
Fixpoint indexFunc (fuel : nat) (s : list N) (i : nat) : option nat :=
  match fuel with
  | O => None
  | S fuel' =>
      match s with
      | [] => None
      | _ =>
          let '(r, size) := utf8.DecodeRune s in
          if negb (unicode.IsSpace r) then Some i
          else indexFunc fuel' (drop size s) (i + size)%nat
      end
  end.

(** [lastIndexFunc(s, unicode.IsSpace, false)], scanning back from [i] *)
Fixpoint lastIndexFunc (fuel : nat) (s : list N) (i : nat) : option nat :=
  match fuel with
  | O => None
  | S fuel' =>
      if Nat.leb i 0 then None
      else
        let '(r, size) := utf8.DecodeLastRune (take i s) in
        let i' := (i - size)%nat in
        if negb (unicode.IsSpace r) then Some i' else lastIndexFunc fuel' s i'
  end.

Definition TrimLeftFunc (s : list N) : list N :=
  match indexFunc (length s) s 0 with
  | None => []
  | Some i => drop i s
  end.

Definition TrimRightFunc (s : list N) : list N :=
  match lastIndexFunc (length s) s (length s) with
  | Some i =>
      if (utf8.RuneSelf <=? utf8.byte_at s i)%N
      then take (i + snd (utf8.DecodeRune (drop i s)))%nat s
      else take (S i) s
  | None => []
  end.

Definition TrimFunc (s : list N) : list N := TrimRightFunc (TrimLeftFunc s).

(** first loop of [TrimSpace]: skip leading ASCII spaces; [inr] when a
    byte outside ASCII is met and the slow path takes over *)
Fixpoint trim_start (s : list N) : list N + list N :=
  match s with
  | [] => inl []
  | c :: t =>
      if (utf8.RuneSelf <=? c)%N then inr s
      else if asciiSpace c then trim_start t
      else inl s
  end.

(** second loop of [TrimSpace], on the reversed rest: [inr] again when a
    byte outside ASCII is met *)
Fixpoint trim_stop (rs : list N) : list N + list N :=
  match rs with
  | [] => inl []
  | c :: t =>
      if (utf8.RuneSelf <=? c)%N then inr rs
      else if asciiSpace c then trim_stop t
      else inl rs
  end.

Definition TrimSpace_bytes (s : list N) : list N :=
  match trim_start s with
  | inr rest => TrimFunc rest
  | inl rest =>
      match trim_stop (rev rest) with
      | inr rs => TrimRightFunc (rev rs)
      | inl rs => rev rs
      end
  end.

Definition bytes (s : string) : list N := Ascii.N_of_ascii <$> String.list_ascii_of_string s.
Definition of_bytes (bs : list N) : string :=
  String.string_of_list_ascii (Ascii.ascii_of_N <$> bs).

(** [strings.TrimSpace] *)
Definition TrimSpace (s : string) : string := of_bytes (TrimSpace_bytes (bytes s)).
End strings.

(** ** The token request *)

(** [refreshTokenResp] *)
Record refreshTokenResp := mkResp {
  Application : string;
  AccessToken : string;
  ExpiresIn : Z          (* Go int: 64-bit *)
}.

(** What [ureq] hands back for one request: [res.OK()], [res.Status],
    the text of the body, and the result of [res.JSON(resp)]. *)
Record response := mkResponse {
  res_OK : bool;
  res_Status : string;
  res_Text : string;
  res_JSON : refreshTokenResp + error
}.

(** result of [c.Post(...).Send(...).End()] *)
Inductive http_result :=
| TransportError (e : error)
| Response (res : response).

(** What the world does during one [RefreshToken]: the choice of the
    select of its [getLimiter], the context as that select sees it, the
    answer to the request, and [time.Now()] at the commit. *)
Record refresh_env := mkRefreshEnv {
  r_ctx : context;
  r_pick : bool;
  r_http : http_result;
  r_now : Time
}.

Definition RefreshToken (ttl : Z) (re : refresh_env) (w0 : World) : outcome unit :=
  let w := log (EvRefreshToken ttl) w0 in
  match GetBaseClient (r_ctx re) (r_pick re) w with
  | Err e w1 => Err ("get client error: " +:+ e) w1
  | Blocked w1 => Blocked w1
  | Panic m w1 => Panic m w1
  | Ok _ w1 =>
      let w2 := log EvPost w1 in
      match r_http re with
      | TransportError e => Err ("refresh token error: " +:+ e) w2
      | Response res =>
          if negb (res_OK res) then
            Err ("refresh token error: " +:+ res_Status res +:+ ", " +:+ res_Text res) w2
          else
            match res_JSON res with
            | inr e => Err ("refresh token error: " +:+ e) w2
            | inl resp =>
                if (String.length (strings.TrimSpace (AccessToken resp)) <? 1)%nat
                then Err "refresh token error: access token is empty" w2
                else if closing w2 then Blocked w2      (* eb.mu.Lock() *)
                else
                  Ok tt (set_eb (set_token (AccessToken resp)
                                   (Add (r_now re) (seconds (ExpiresIn resp)))
                                   (eb w2)) w2)
            end
      end
  end.

(** What the world does during one [GetAccessClient]. *)
Record access_env := mkAccessEnv {
  a_ctx : context;
  a_pick : bool;
  a_now : Time;            (* time.Now() at the expiry check *)
  a_refresh : refresh_env
}.

Definition Bearer (w : World) : Client :=
  Set_ "Authorization" ("Bearer " +:+ accessToken (eb w)) (Clone (client (eb w))).

Definition GetAccessClient (ae : access_env) (w : World) : outcome Client :=
  match getLimiter (a_ctx ae) (a_pick ae) w with
  | Err e w1 => Err e w1
  | Blocked w1 => Blocked w1
  | Panic m w1 => Panic m w1
  | Ok _ w1 =>
      if closing w1 then Blocked w1      (* eb.mu.RLock() *)
      else if Before (accessTokenExpiresAt (eb w1)) (a_now ae)
              || (String.length (accessToken (eb w1)) <? 1)%nat
      then
        match RefreshToken 0 (a_refresh ae) w1 with
        | Err e w2 => Err ("refresh token error: " +:+ e) w2
        | Blocked w2 => Blocked w2
        | Panic m w2 => Panic m w2
        | Ok _ w2 => Ok (Bearer w2) w2
        end
      else Ok (Bearer w1) w1
  end.

(** number of [RefreshToken] calls in a trace *)
Fixpoint refreshes (tr : list event) : nat :=
  match tr with
  | [] => 0%nat
  | EvRefreshToken _ :: tr' => S (refreshes tr')
  | EvPost :: tr' => refreshes tr'
  end.

(** ** Sequences of calls *)

(** Acquisitions by callers whose cancellation has not fired, one after
    the other and with nothing in between; [picks] are the choices of the
    selects. *)
Fixpoint acquire_seq (picks : list bool) (w : World) : option World :=
  match picks with
  | [] => Some w
  | p :: ps =>
      match getLimiter None p w with
      | Ok _ w' => acquire_seq ps w'
      | _ => None
      end
  end.

(** What goes on around the callers: a ticker fires, or the reset
    goroutine takes a step. *)
Inductive env_step : World → World → Prop :=
| env_tick tk w : env_step w (tick tk w)
| env_limiter pick w w' : limiter_step pick w = Some w' → env_step w w'.

(** [Close] has run on [w0] and returned, leaving [w]: it parked on the
    exit channel, and the goroutine took the exit case. *)
Definition after_Close (w0 w : World) : Prop :=
  ∃ w1, closing w0 = false ∧ Close w0 = Blocked w1
        ∧ rtc env_step w1 w ∧ closing w = false ∧ loop w = LExit.

(** [msg] contains [part] *)
Definition contains (msg part : string) : Prop :=
  ∃ pre post, msg = pre +:+ part +:+ post.

(** the reasons for which the exchange itself fails: no answer, an answer
    with a non-success status, a body that does not decode, or a decoded
    body whose token is empty or white space *)
Inductive refresh_failure : http_result → Prop :=
| fail_transport e : refresh_failure (TransportError e)
| fail_status res : res_OK res = false → refresh_failure (Response res)
| fail_decode res e :
    res_OK res = true → res_JSON res = inr e → refresh_failure (Response res)
| fail_empty res resp :
    res_OK res = true → res_JSON res = inl resp →
    strings.TrimSpace (AccessToken resp) = EmptyString →
    refresh_failure (Response res).

(** the channel at address [c] exists and is closed *)
Definition closed_at (c : nat) (w : World) : Prop :=
  ∃ ch, chans w !! c = Some ch ∧ ch_closed ch = true.

(** ** Scenarios *)

(** A schedule: a ticker fires, the reset goroutine runs for up to [n]
    steps (or until it parks), or a caller with a live context asks for
    admission and gets it. *)
Inductive action :=
| ATick (tk : nat)
| ALoop (n : nat)
| AAcquire.

(** Plays a schedule; [None] as soon as a caller is not admitted. *)
Fixpoint play (sched : list action) (w : World) : option World :=
  match sched with
  | [] => Some w
  | ATick tk :: rest => play rest (tick tk w)
  | ALoop n :: rest => play rest (limiter_run n w)
  | AAcquire :: rest =>
      match getLimiter None true w with
      | Ok _ w' => play rest w'
      | _ => None
      end
  end.

(** The cached token is treated as never expiring from [since] on: no
    admitted call at any later instant enters [RefreshToken]. *)
Definition never_expiring (since : Time) (w : World) : Prop :=
  ∀ ae w1,
    since ≤ a_now ae →
    getLimiter (a_ctx ae) (a_pick ae) w = Ok tt w1 →
    refreshes (trace (world_of (GetAccessClient ae w))) = refreshes (trace w).

(** the client right after [NewEasemob] *)
Definition fresh : World :=
  mkWorld
    (mkEasemob ureq_New "a1.easemob.com" "org" "app" "id" "secret"
       EmptyString zeroTime 0%nat 0%nat)
    [Chan 1 0 false] [Ticker Second false false] LTop false [].

(** the same client after [SetLimiter(4, time.Second)], its goroutine
    parked on the new ticker *)
Definition roomy : World := limiter_run 1 (world_of (SetLimiter 4 Second fresh)).

(** a caller at instant 1000 whose token request is answered at instant
    1001 with the token [T] and [expires_in] 0 *)
Definition grant0 : access_env :=
  mkAccessEnv None true 1000
    (mkRefreshEnv None true
       (Response (mkResponse true "200 OK" "..."
                    (inl (mkResp "8be024f0" "T" 0))))
       1001).

(** a caller one nanosecond after that commit *)
Definition later : access_env :=
  mkAccessEnv None true 1002
    (mkRefreshEnv None true (TransportError "connection refused") 1003).

(** the client after [SetLimiter(2, time.Second)], its goroutine parked on
    the new ticker (address 1) *)
Definition half : World := limiter_run 1 (world_of (SetLimiter 2 Second fresh)).

(** the fresh client, its goroutine parked on the first ticker, after
    [Close] has returned *)
Definition shut : World := limiter_run 5 (world_of (Close (limiter_run 1 fresh))).

(** ** The push requests *)

(** [PushMessage] and its parts; a pointer that may be nil is an option,
    and [Ext], an [interface{}], is the JSON text of its value. *)
Record PushConfigClickAction := mkClickAction {
  Url : string;
  Action : string;
  Activity : string
}.

Record PushConfigBadge := mkBadge {
  AddNum : Z;
  SetNum : Z;
  badge_Activity : string
}.

Record PushConfig := mkPushConfig {
  ClickAction : option PushConfigClickAction;
  Badge : option PushConfigBadge
}.

Record PushMessage := mkPushMessage {
  Title : string;
  Content : string;
  Ext : option string;
  Config : option PushConfig
}.

(** [PushRespCommon[T]]; [Data] is a slice of pointers, [None] being a nil
    entry (a JSON null). *)
Record PushRespCommon (T : Type) := mkPushResp {
  Timestamp : Z;
  Data : list (option T);
  Duration : Z
}.
Arguments mkPushResp {T} _ _ _.
Arguments Timestamp {T} _.
Arguments Data {T} _.
Arguments Duration {T} _.

Record PushSyncRespStatusData := mkSyncStatus {
  Result : string;
  MsgId : list string
}.

Record PushSyncRespData := mkSyncData {
  PushStatus : string;
  sync_Data : option PushSyncRespStatusData
}.

Record PushSingleRespData := mkSingleData {
  single_PushStatus : string;
  single_Data : string;
  Desc : string
}.

(** the answer to a push request, as [ureq] hands it back *)
Record push_response (T : Type) := mkPushResponse {
  pr_OK : bool;
  pr_Status : string;
  pr_Text : string;
  pr_JSON : PushRespCommon T + error
}.
Arguments mkPushResponse {T} _ _ _ _.
Arguments pr_OK {T} _.
Arguments pr_Status {T} _.
Arguments pr_Text {T} _.
Arguments pr_JSON {T} _.

Inductive push_result (T : Type) :=
| PushTransportError (e : error)
| PushResponse (res : push_response T).
Arguments PushTransportError {T} e.
Arguments PushResponse {T} res.

(** What the world does during one push call. *)
Record push_env (T : Type) := mkPushEnv {
  p_access : access_env;
  p_http : push_result T
}.
Arguments mkPushEnv {T} _ _.
Arguments p_access {T} _.
Arguments p_http {T} _.

(** the loop of [PushSync] over [resp.Data] *)
Inductive scan :=
| AllSuccess
| Failed (status : string)     (* the first status that is not SUCCESS *)
| NilEntry.                    (* [v.PushStatus] on a nil [v] *)

Fixpoint scan_statuses (data : list (option PushSyncRespData)) : scan :=
  match data with
  | [] => AllSuccess
  | None :: _ => NilEntry
  | Some v :: rest =>
      if String.eqb (PushStatus v) "SUCCESS" then scan_statuses rest
      else Failed (PushStatus v)
  end.

Definition PushSync (strategy : Z) (target : string) (msg : option PushMessage)
    (pe : push_env PushSyncRespData) (w : World)
  : outcome (PushRespCommon PushSyncRespData) :=
  match GetAccessClient (p_access pe) w with
  | Err e w1 => Err ("get client error: " +:+ e) w1
  | Blocked w1 => Blocked w1
  | Panic m w1 => Panic m w1
  | Ok _ w1 =>
      if closing w1 then Blocked w1      (* GetURL: eb.mu.RLock() *)
      else
        match p_http pe with
        | PushTransportError e => Err ("push sync error: " +:+ e) w1
        | PushResponse res =>
            if negb (pr_OK res) then
              Err ("push sync error: " +:+ pr_Status res +:+ ", " +:+ pr_Text res) w1
            else
              match pr_JSON res with
              | inr e => Err ("push sync error: " +:+ e) w1
              | inl resp =>
                  match scan_statuses (Data resp) with
                  | AllSuccess => Ok resp w1
                  | Failed status => Err ("push sync error: " +:+ status) w1
                  | NilEntry =>
                      Panic "runtime error: invalid memory address or nil pointer dereference" w1
                  end
              end
        end
  end.

Definition PushSingle (strategy : Z) (targets : list string)
    (msg : option PushMessage) (pe : push_env PushSingleRespData) (w : World)
  : outcome (PushRespCommon PushSingleRespData) :=
  match GetAccessClient (p_access pe) w with
  | Err e w1 => Err ("get client error: " +:+ e) w1
  | Blocked w1 => Blocked w1
  | Panic m w1 => Panic m w1
  | Ok _ w1 =>
      if Nat.ltb 100 (length targets) then
        Err "push single error: targets length > 100" w1
      else if closing w1 then Blocked w1      (* GetURL: eb.mu.RLock() *)
      else
        match p_http pe with
        | PushTransportError e => Err ("push sync error: " +:+ e) w1
        | PushResponse res =>
            if negb (pr_OK res) then
              Err ("push sync error: " +:+ pr_Status res +:+ ", " +:+ pr_Text res) w1
            else
              match pr_JSON res with
              | inr e => Err ("push sync error: " +:+ e) w1
              | inl resp => Ok resp w1
              end
        end
  end.

(** ** Everything that can happen to a client *)

(** One move of the world.  Callers send on the channel the client holds
    at that moment, or on a channel of [senders] (channels evaluated
    earlier by callers that are still on their way); every call of the
    interface, whole or resumed after it parked, is a sequence of these
    moves. *)
Inductive step (senders : nat → Prop) : World → World → Prop :=
| step_tick tk w : step senders w (tick tk w)
| step_limiter pick w w' : limiter_step pick w = Some w' → step senders w w'
| step_acquire c ctx pick w :
    c = limiterChan (eb w) ∨ senders c →
    step senders w (world_of (getLimiter_on c ctx pick w))
| step_log ev w : step senders w (log ev w)
| step_commit tok exp w :
    closing w = false → step senders w (set_eb (set_token tok exp (eb w)) w)
| step_timeout d w :
    closing w = false →
    step senders w (set_eb (set_client (Timeout d (client (eb w))) (eb w)) w)
| step_SetLimiter rate interval w :
    step senders w (world_of (SetLimiter rate interval w))
| step_Close w : step senders w (world_of (Close w)).

(** no channel holds more than its capacity *)
Definition bounded (cs : list chan) : Prop :=
  ∀ c ch, cs !! c = Some ch → (ch_len ch ≤ ch_cap ch)%nat.

(** the invariant of a client: its addresses point into the heap, and no
    channel holds more than its capacity *)
Record wf (w : World) : Prop := mkWf {
  wf_chan : (limiterChan (eb w) < length (chans w))%nat;
  wf_ticker : (limiterResetTicker (eb w) < length (tickers w))%nat;
  wf_bound : bounded (chans w);
  wf_loop : match loop w with
            | LSelect tk => (tk < length (tickers w))%nat
            | LRecvOn _ c => (c < length (chans w))%nat
            | _ => True
            end
}.

(** the goroutine is parked on a receive from the empty channel [c],
    which is no longer the pool of the client *)
Definition orphaned (i c : nat) (w : World) : Prop :=
  loop w = LRecvOn i c
  ∧ (∃ n, chans w !! c = Some (Chan (S n) 0 false))
  ∧ limiterChan (eb w) ≠ c.

(** the channel [c], full, is no longer the pool of the client, and the
    goroutine is not receiving from it *)
Definition stranded (c n : nat) (w : World) : Prop :=
  chans w !! c = Some (Chan n n false)
  ∧ limiterChan (eb w) ≠ c
  ∧ receiver_on c w = false.

(** an entry of [resp.Data] that [PushSync] accepts *)
Definition succeeded (o : option PushSyncRespData) : Prop :=
  ∃ v, o = Some v ∧ PushStatus v = "SUCCESS".

(** the client of [roomy] after a refresh that was answered at instant
    1001 with the token [T], good for an hour *)
Definition tokened : World :=
  world_of (RefreshToken 0
              (mkRefreshEnv None true
                 (Response (mkResponse true "200 OK" "..."
                              (inl (mkResp "8be024f0" "T" 3600))))
                 1001) roomy).

(** a caller at instant 2000, its context live *)
Definition caller : access_env := mkAccessEnv None true 2000 (a_refresh later).

(** Callers, each with its context and the choice of its select, ask for
    admission one after the other while the goroutine does not move; the
    number of those admitted, and the world they leave. *)
Fixpoint admitted (attempts : list (context * bool)) (w : World) : nat * World :=
  match attempts with
  | [] => (0%nat, w)
  | (ctx, pick) :: rest =>
      match getLimiter ctx pick w with
      | Ok _ w' => let '(m, w'') := admitted rest w' in (S m, w'')
      | o => admitted rest (world_of o)
      end
  end.

(** the token needs a refresh at instant [now] *)
Definition stale (now : Time) (w : World) : bool :=
  Before (accessTokenExpiresAt (eb w)) now
  || (String.length (accessToken (eb w)) <? 1)%nat.

(** * Properties *)

(** ** Basic facts *)

Lemma length_lt_1 (s : string) : (String.length s <? 1)%nat = true ↔ s = EmptyString.
Proof.
  destruct s as [|a s]; simpl; split; intros H; try done.
Qed.

Lemma append_empty_r (s : string) : s +:+ EmptyString = s.
Proof.
  induction s as [|a s IH]; [done|].
  change (String a (s +:+ EmptyString) = String a s). by rewrite IH.
Qed.

Lemma append_assoc (s t u : string) : (s +:+ t) +:+ u = s +:+ t +:+ u.
Proof.
  induction s as [|a s IH]; [done|].
  change (String a ((s +:+ t) +:+ u) = String a (s +:+ t +:+ u)). by rewrite IH.
Qed.

Lemma set_chans_id (w : World) : set_chans (chans w) w = w.
Proof. by destruct w. Qed.

Lemma chan_at_lookup (c : nat) (w : World) (ch : chan) :
  chans w !! c = Some ch → chan_at c w = ch.
Proof. unfold chan_at. by intros ->. Qed.

Lemma seconds_exact (n : Z) :
  -9223372036 ≤ n ≤ 9223372036 → seconds n = n * Second.
Proof.
  intros Hn. unfold seconds, wrap64, Second.
  rewrite Z.mod_small; lia.
Qed.

(** The trace is ghost state: the limiter does not look at it. *)
Lemma getLimiter_log (ctx : context) (pick : bool) (ev : event) (w : World) :
  getLimiter ctx pick (log ev w)
  = match getLimiter ctx pick w with
    | Ok a w' => Ok a (log ev w')
    | Err e w' => Err e (log ev w')
    | Blocked w' => Blocked (log ev w')
    | Panic m w' => Panic m (log ev w')
    end.
Proof.
  unfold getLimiter, getLimiter_on, send_ready, chan_send, receiver_on.
  simpl.
  destruct (chans w !! limiterChan (eb w)) as [[cp ln [|]]|]; simpl.
  - destruct ctx as [e|]; [destruct pick|]; reflexivity.
  - destruct (Nat.eqb cp 0).
    + destruct (loop w) as [| | | |i c'|]; simpl;
        try (destruct ctx; reflexivity).
      destruct (Nat.eqb _ c'); destruct ctx as [e|]; [destruct pick| | |]; reflexivity.
    + destruct (Nat.ltb ln cp); destruct ctx as [e|]; [destruct pick| | |]; reflexivity.
  - destruct ctx; reflexivity.
Qed.

(** An acquisition touches neither the token cache, nor the lock, nor the
    trace. *)
Lemma getLimiter_frame (ctx : context) (pick : bool) (w : World) :
  let w' := world_of (getLimiter ctx pick w) in
  eb w' = eb w ∧ closing w' = closing w ∧ trace w' = trace w
  ∧ tickers w' = tickers w.
Proof.
  unfold getLimiter, getLimiter_on, chan_send.
  destruct (send_ready _ w), ctx as [e|]; [destruct pick| | |]; simpl; try done;
    destruct (chans w !! _) as [ch|]; simpl; try done;
    destruct (ch_closed _); simpl; try done;
    destruct (Nat.eqb _ 0); simpl; try done;
    destruct (loop w) as [| | | |i c'|]; simpl; try done;
    destruct (Nat.eqb _ c'); simpl; done.
Qed.

(** case analysis on one acquisition, with its frame *)
Ltac case_limiter ctx pick w :=
  let He := fresh "He" in let Hc := fresh "Hc" in
  let Ht := fresh "Ht" in let Hk := fresh "Hk" in
  destruct (getLimiter_frame ctx pick w) as (He & Hc & Ht & Hk);
  destruct (getLimiter ctx pick w) as [[] ?w|?e ?w|?w|?m ?w]; simpl in *.

(** ** Construction *)

(** C8. [NewEasemob] fails exactly when one of its five arguments is
    empty; a failure carries no client, and a success carries the
    initialized client with the reset goroutine started (it is at the top
    of its loop and able to run). *)
Theorem NewEasemob_validates (h o a i s : string) :
  ((∃ e, NewEasemob h o a i s = inr e)
   ↔ (h = EmptyString ∨ o = EmptyString ∨ a = EmptyString ∨ i = EmptyString ∨ s = EmptyString))
  ∧ (∀ e, NewEasemob h o a i s = inr e → e = "invalid params")
  ∧ (∀ w, NewEasemob h o a i s = inl w →
       host (eb w) = h ∧ orgName (eb w) = o ∧ appName (eb w) = a
       ∧ clientId (eb w) = i ∧ clientSecret (eb w) = s
       ∧ accessToken (eb w) = EmptyString ∧ closing w = false
       ∧ chans w !! limiterChan (eb w) = Some (Chan 1 0 false)
       ∧ tickers w !! limiterResetTicker (eb w) = Some (Ticker Second false false)
       ∧ loop w = LTop
       ∧ ∀ pick, is_Some (limiter_step pick w)).
Proof.
  unfold NewEasemob.
  destruct (_ || _) eqn:E.
  - rewrite !orb_true_iff, !length_lt_1 in E.
    split; [split; [intros _; tauto | eauto] | split; [congruence | discriminate]].
  - rewrite !orb_false_iff in E. destruct E as ((((H1 & H2) & H3) & H4) & H5).
    split; [split|split].
    + intros [e He]. discriminate He.
    + intros [->|[->|[->|[->| ->]]]]; discriminate.
    + discriminate.
    + intros w [= <-]. simpl. repeat split; eauto.
Qed.

(** ** Acquisition *)

(** An acquisition that returns an error returns the error of its context
    and leaves the world as it found it. *)
Lemma getLimiter_on_Err_inv (c : nat) (ctx : context) (pick : bool)
    (w w' : World) (e : error) :
  getLimiter_on c ctx pick w = Err e w' → ctx = Some e ∧ w' = w.
Proof.
  unfold getLimiter_on, chan_send.
  destruct (send_ready c w), ctx as [e0|]; [destruct pick| | |];
    try (intros [= -> ->]; done); try discriminate;
    destruct (chans w !! _) as [ch|]; try discriminate;
    destruct (ch_closed _); try discriminate;
    destruct (Nat.eqb _ 0); try discriminate;
    destruct (loop w) as [| | | |i c'|]; try discriminate;
    destruct (Nat.eqb c c'); discriminate.
Qed.

(** With a context that is still live, the choice of the select does not
    matter. *)
Lemma getLimiter_live_pick (pick pick' : bool) (w : World) :
  getLimiter None pick w = getLimiter None pick' w.
Proof. unfold getLimiter, getLimiter_on. by destruct (send_ready _ w). Qed.

(** One acquisition on an open buffered pool with room. *)
Lemma getLimiter_room (p : bool) (w : World) (n k : nat) :
  chans w !! limiterChan (eb w) = Some (Chan n k false) →
  (k < n)%nat →
  getLimiter None p w
  = Ok tt (set_chans (<[limiterChan (eb w) := Chan n (S k) false]> (chans w)) w).
Proof.
  intros Hc Hk. unfold getLimiter, getLimiter_on, send_ready, chan_send.
  rewrite Hc. simpl.
  destruct (Nat.eqb_spec n 0) as [->|Hn]; [lia|].
  by destruct (Nat.ltb_spec k n); [|lia].
Qed.

(** Filling the pool from occupancy [k]. *)
Lemma acquire_seq_fill (picks : list bool) : ∀ (w : World) (n k : nat),
  chans w !! limiterChan (eb w) = Some (Chan n k false) →
  (k + length picks ≤ n)%nat →
  acquire_seq picks w
  = Some (set_chans (<[limiterChan (eb w) := Chan n (k + length picks) false]> (chans w)) w).
Proof.
  induction picks as [|p ps IH]; intros w n k Hc Hk; simpl in *.
  - rewrite Nat.add_0_r, list_insert_id by done. by rewrite set_chans_id.
  - rewrite (getLimiter_room p w n k Hc) by lia.
    assert (Hlt : (limiterChan (eb w) < length (chans w))%nat)
      by (eapply lookup_lt_Some; eauto).
    rewrite (IH _ n (S k)); simpl.
    + rewrite list_insert_insert_eq. unfold set_chans. simpl.
      by rewrite Nat.add_succ_r.
    + by rewrite list_lookup_insert_eq.
    + lia.
Qed.

(** When no reset is in flight.  On an empty pool of capacity [N] from
    which the goroutine is not receiving, [N] acquisitions in a row by callers whose cancellation has not fired
    succeed at once; the next one does not succeed while no reset step
    happens: with a live context it stays blocked, and once its
    cancellation has fired it returns the cancellation error.  Both leave
    the pool as it is, so the same holds for every later attempt until
    the reset goroutine moves. *)
Theorem first_N_acquires_then_block (w : World) (N : nat) (picks : list bool) :
  chans w !! limiterChan (eb w) = Some (Chan N 0 false) →
  receiver_on (limiterChan (eb w)) w = false →
  length picks = N →
  ∃ wN, acquire_seq picks w = Some wN
        ∧ occupancy wN = N ∧ capacity wN = N
        ∧ (∀ pick, getLimiter None pick wN = Blocked wN)
        ∧ (∀ e pick, getLimiter (Some e) pick wN = Err e wN).
Proof.
  intros Hc Hr Hlen.
  assert (Hlt : (limiterChan (eb w) < length (chans w))%nat)
    by (eapply lookup_lt_Some; eauto).
  eexists. split; [apply (acquire_seq_fill picks w N 0 Hc); lia|].
  simpl. rewrite Hlen.
  set (wN := set_chans _ w).
  assert (Hch : chans wN !! limiterChan (eb wN) = Some (Chan N N false))
    by (simpl; by rewrite list_lookup_insert_eq).
  assert (Hnr : send_ready (limiterChan (eb wN)) wN = false).
  { unfold send_ready. rewrite Hch. simpl.
    destruct (Nat.eqb N 0); [exact Hr|]. apply Nat.ltb_irrefl. }
  unfold occupancy, capacity. rewrite (chan_at_lookup _ _ _ Hch). simpl.
  repeat split; intros; unfold getLimiter, getLimiter_on; by rewrite Hnr.
Qed.

(** The fresh client, right after its construction and once its single
    permit has been taken, blocks the second caller. *)
Lemma first_N_acquires_then_block_witness :
  ∃ w, NewEasemob "a1.easemob.com" "org" "app" "id" "secret" = inl w
       ∧ ∃ wN, acquire_seq [true] w = Some wN
               ∧ occupancy wN = 1%nat ∧ capacity wN = 1%nat
               ∧ (∀ pick, getLimiter None pick wN = Blocked wN)
               ∧ (∀ e pick, getLimiter (Some e) pick wN = Err e wN).
Proof.
  eexists. split; [reflexivity|].
  apply (first_N_acquires_then_block _ 1 [true]); reflexivity.
Defined.

(** C3. The pool does not hold caller [N+1] back until the next tick.  A
    tick that finds fewer than [N] permits leaves the goroutine parked
    inside the drain, on a receive from the pool; the pool is empty then,
    which is the state of every client after a window in which it was not
    used.  From that state, for every rate [N], the first caller is
    admitted, the goroutine takes its permit as part of the reset that is
    still going on, and [N] more callers are admitted in a row: [N+1]
    callers, and no ticker has fired or been read in between. *)
Theorem idle_window_admits_one_more (w : World) (N : nat) (pick p : bool)
    (picks : list bool) :
  chans w !! limiterChan (eb w) = Some (Chan N 0 false) →
  (0 < N)%nat →
  loop w = LRecvOn 0 (limiterChan (eb w)) →
  length picks = N →
  ∃ w1 w3,
    getLimiter None pick w = Ok tt w1
    ∧ limiter_step p w1 = Some (set_loop (LCheck 1) w)
    ∧ occupancy (set_loop (LCheck 1) w) = 0%nat
    ∧ acquire_seq picks (set_loop (LCheck 1) w) = Some w3
    ∧ occupancy w3 = N
    ∧ tickers w1 = tickers w ∧ tickers w3 = tickers w.
Proof.
  intros Hc HN Hpc Hlen.
  assert (Hlt : (limiterChan (eb w) < length (chans w))%nat)
    by (eapply lookup_lt_Some; eauto).
  assert (Hc2 : chans (set_loop (LCheck 1) w)
                  !! limiterChan (eb (set_loop (LCheck 1) w))
                = Some (Chan N 0 false)) by done.
  eexists _, _.
  split; [apply (getLimiter_room pick w N 0 Hc HN)|].
  split.
  { unfold limiter_step. simpl. rewrite Hpc. unfold chan_recv. simpl.
    rewrite list_lookup_insert_eq by done. simpl.
    rewrite list_insert_insert_eq, list_insert_id by done.
    by destruct w. }
  split; [unfold occupancy; by rewrite (chan_at_lookup _ _ _ Hc2)|].
  split; [apply (acquire_seq_fill picks _ N 0 Hc2); lia|].
  split; [|done].
  unfold occupancy, chan_at. simpl.
  rewrite list_lookup_insert_eq by done. simpl. lia.
Qed.

(** The fresh client after an idle first second: two callers pass its pool
    of capacity 1 before the next tick. *)
Lemma idle_window_admits_one_more_witness :
  NewEasemob "a1.easemob.com" "org" "app" "id" "secret" = inl fresh
  ∧ let w := limiter_run 100 (tick 0 (limiter_run 1 fresh)) in
    capacity w = 1%nat
    ∧ tk_pending (ticker_at (limiterResetTicker (eb w)) w) = false
    ∧ ∃ w1 w3,
        getLimiter None true w = Ok tt w1
        ∧ limiter_step true w1 = Some (set_loop (LCheck 1) w)
        ∧ occupancy (set_loop (LCheck 1) w) = 0%nat
        ∧ acquire_seq [true] (set_loop (LCheck 1) w) = Some w3
        ∧ occupancy w3 = 1%nat
        ∧ tickers w1 = tickers w ∧ tickers w3 = tickers w.
Proof.
  split; [reflexivity|]. intros w. split; [reflexivity|]. split; [reflexivity|].
  apply (idle_window_admits_one_more w 1 true true [true]).
  - reflexivity.
  - lia.
  - reflexivity.
  - reflexivity.
Defined.

(** C7. A caller that is blocked in [getLimiter] (the send on channel [c]
    cannot proceed) and whose cancellation then fires gets the
    cancellation error back, and the world, hence the occupancy of the
    pool, is exactly what it was: the cancelled call deposits nothing. *)
Theorem cancelled_acquire_deposits_nothing (c : nat) (w : World) (e : error)
    (pick : bool) :
  send_ready c w = false →
  getLimiter_on c None pick w = Blocked w
  ∧ getLimiter_on c (Some e) pick w = Err e w
  ∧ occupancy (world_of (getLimiter_on c (Some e) pick w)) = occupancy w
  ∧ chans (world_of (getLimiter_on c (Some e) pick w)) = chans w.
Proof.
  intros Hnr. unfold getLimiter_on. rewrite Hnr. by simpl.
Qed.

Lemma cancelled_acquire_deposits_nothing_witness :
  let w := mkWorld
             (mkEasemob ureq_New "h" "o" "a" "i" "s" EmptyString zeroTime 0%nat 0%nat)
             [Chan 1 1 false] [Ticker Second false false] (LSelect 0) false [] in
  getLimiter_on 0 None true w = Blocked w
  ∧ getLimiter_on 0 (Some Canceled) true w = Err Canceled w
  ∧ occupancy (world_of (getLimiter_on 0 (Some Canceled) true w)) = occupancy w
  ∧ chans (world_of (getLimiter_on 0 (Some Canceled) true w)) = chans w.
Proof.
  intros w. apply (cancelled_acquire_deposits_nothing 0 w Canceled true).
  reflexivity.
Defined.

(** ** The token cache *)

Lemma refreshes_app (tr tr' : list event) :
  refreshes (tr ++ tr') = (refreshes tr + refreshes tr')%nat.
Proof.
  induction tr as [|[ttl|] tr IH]; simpl; [done| |done]. by rewrite IH.
Qed.

(** [RefreshToken] logs its own entry, once, whatever happens next. *)
Lemma RefreshToken_refreshes (ttl : Z) (re : refresh_env) (w : World) :
  refreshes (trace (world_of (RefreshToken ttl re w))) = S (refreshes (trace w)).
Proof.
  unfold RefreshToken, GetBaseClient. rewrite getLimiter_log.
  case_limiter (r_ctx re) (r_pick re) w;
    rewrite ?Ht, ?refreshes_app; simpl; try lia.
  destruct (closing w0) eqn:Hcl; simpl; rewrite ?Ht, ?refreshes_app; simpl; try lia.
  destruct (r_http re) as [e|res]; simpl;
    rewrite ?refreshes_app, ?Ht; simpl; try lia.
  destruct (res_OK res); simpl; rewrite ?refreshes_app, ?Ht; simpl; try lia.
  destruct (res_JSON res) as [resp|e]; simpl;
    rewrite ?refreshes_app, ?Ht; simpl; try lia.
  destruct (_ <? 1)%nat; simpl; rewrite ?refreshes_app, ?Ht; simpl; [lia|].
  destruct (closing w0); simpl; rewrite ?refreshes_app, ?Ht; simpl; lia.
Qed.

(** A refresh that does not succeed leaves the client, and so the cached
    token and its expiry, untouched; no refresh touches the lock. *)
Lemma RefreshToken_frame (ttl : Z) (re : refresh_env) (w : World) :
  closing (world_of (RefreshToken ttl re w)) = closing w
  ∧ ((∀ w', RefreshToken ttl re w ≠ Ok tt w') →
     eb (world_of (RefreshToken ttl re w)) = eb w).
Proof.
  unfold RefreshToken, GetBaseClient. rewrite getLimiter_log.
  case_limiter (r_ctx re) (r_pick re) w; try done.
  destruct (closing w0) eqn:Hcl; simpl; [by rewrite Hcl|].
  destruct (r_http re) as [e|res]; simpl; [by rewrite Hcl|].
  destruct (res_OK res); simpl; [|by rewrite Hcl].
  destruct (res_JSON res) as [resp|e]; simpl; [|by rewrite Hcl].
  destruct (_ <? 1)%nat; simpl; [by rewrite Hcl|].
  rewrite Hcl. simpl.
  split; [congruence|]. intros Hno. by destruct (Hno _ eq_refl).
Qed.

(** What a successful refresh has done. *)
Lemma RefreshToken_Ok_inv (ttl : Z) (re : refresh_env) (w w' : World) :
  RefreshToken ttl re w = Ok tt w' →
  ∃ res resp,
    r_http re = Response res ∧ res_OK res = true ∧ res_JSON res = inl resp
    ∧ strings.TrimSpace (AccessToken resp) ≠ EmptyString
    ∧ accessToken (eb w') = AccessToken resp
    ∧ accessTokenExpiresAt (eb w') = Add (r_now re) (seconds (ExpiresIn resp))
    ∧ client (eb w') = client (eb w)
    ∧ closing w' = false.
Proof.
  unfold RefreshToken, GetBaseClient. rewrite getLimiter_log.
  case_limiter (r_ctx re) (r_pick re) w; try discriminate.
  destruct (closing w0) eqn:Hcl; simpl; [discriminate|].
  destruct (r_http re) as [e|res]; simpl; [discriminate|].
  destruct (res_OK res) eqn:Hok; simpl; [|discriminate].
  destruct (res_JSON res) as [resp|e] eqn:Hjs; simpl; [|discriminate].
  destruct (_ <? 1)%nat eqn:Hlen; simpl; [discriminate|].
  rewrite Hcl. intros [= <-]. exists res, resp. simpl. rewrite He.
  repeat split; try done.
  intros Hemp. rewrite Hemp in Hlen. discriminate Hlen.
Qed.

(** A token made of ASCII white space only is trimmed to nothing. *)
Lemma TrimSpace_ascii_spaces (s : string) :
  Forall (λ c, strings.asciiSpace c = true) (strings.bytes s) →
  strings.TrimSpace s = EmptyString.
Proof.
  unfold strings.TrimSpace, strings.TrimSpace_bytes.
  generalize (strings.bytes s). intros bs Hall.
  assert (Hstart : strings.trim_start bs = inl []).
  { induction Hall as [|c bs Hc _ IH]; simpl; [done|].
    rewrite Hc.
    assert (Hlow : (utf8.RuneSelf <=? c)%N = false).
    { apply N.leb_gt. unfold strings.asciiSpace in Hc.
      repeat (apply orb_true_iff in Hc; destruct Hc as [Hc|Hc]);
        apply N.eqb_eq in Hc; subst c; unfold utf8.RuneSelf; lia. }
    by rewrite Hlow. }
  by rewrite Hstart.
Qed.

(** A token of three blanks in an otherwise good answer is refused. *)
Example blank_token_is_refused :
  let res := mkResponse true "200 OK" "..." (inl (mkResp "8be024f0" "   " 3600)) in
  RefreshToken 0 (mkRefreshEnv None true (Response res) 1001) roomy
  = Err "refresh token error: access token is empty"
      (log EvPost (world_of (getLimiter None true (log (EvRefreshToken 0) roomy)))).
Proof. reflexivity. Qed.

(** C6. A refresh whose request was sent (the limiter admitted it) and
    whose exchange failed, by a transport error, a non-success status, an
    undecodable body or an empty or white-space token, returns an error
    and leaves the cached token and its expiry as they were; for a
    non-success status the error text contains the status and the body
    text. *)
Theorem failed_refresh_keeps_cache (ttl : Z) (re : refresh_env) (w w1 : World) :
  refresh_failure (r_http re) →
  getLimiter (r_ctx re) (r_pick re) w = Ok tt w1 →
  closing w = false →
  ∃ msg w',
    RefreshToken ttl re w = Err msg w'
    ∧ accessToken (eb w') = accessToken (eb w)
    ∧ accessTokenExpiresAt (eb w') = accessTokenExpiresAt (eb w)
    ∧ (∀ res, r_http re = Response res → res_OK res = false →
         msg = "refresh token error: " +:+ res_Status res +:+ ", " +:+ res_Text res
         ∧ contains msg (res_Status res) ∧ contains msg (res_Text res)).
Proof.
  intros Hfail Hadm Hcl.
  unfold RefreshToken, GetBaseClient. rewrite getLimiter_log.
  destruct (getLimiter_frame (r_ctx re) (r_pick re) w) as (He & Hc & _).
  rewrite Hadm in *. simpl in *. rewrite Hc, Hcl.
  destruct Hfail as [e|res Hok|res e Hok Hjs|res resp Hok Hjs Hemp];
    rewrite ?Hok, ?Hjs, ?Hemp; simpl;
    eexists _, _; (split; [reflexivity|]); simpl; rewrite He;
    (split; [done|split; [done|]]).
  - discriminate.
  - intros res' [= <-] _. split; [done|]. split.
    + by exists "refresh token error: ", (", " +:+ res_Text res).
    + exists ("refresh token error: " +:+ res_Status res +:+ ", "), EmptyString.
      by rewrite append_empty_r, !append_assoc.
  - intros res' [= <-] Hno. congruence.
  - intros res' [= <-] Hno. congruence.
Qed.

Lemma failed_refresh_keeps_cache_witness :
  let w := mkWorld
             (mkEasemob ureq_New "h" "o" "a" "i" "s" "tok" 5000 0%nat 0%nat)
             [Chan 2 1 false] [Ticker Second false false] (LSelect 0) false [] in
  let res := mkResponse false "401 Unauthorized" "invalid_client"
               (inr "unexpected end of JSON input") in
  let re := mkRefreshEnv None true (Response res) 7000 in
  ∃ msg w',
    RefreshToken 0 re w = Err msg w'
    ∧ accessToken (eb w') = "tok"
    ∧ accessTokenExpiresAt (eb w') = 5000
    ∧ (∀ res', r_http re = Response res' → res_OK res' = false →
         msg = "refresh token error: " +:+ res_Status res' +:+ ", " +:+ res_Text res'
         ∧ contains msg (res_Status res') ∧ contains msg (res_Text res')).
Proof.
  intros w res re.
  apply (failed_refresh_keeps_cache 0 re w
           (set_chans [Chan 2 2 false] w)).
  - apply fail_status. reflexivity.
  - reflexivity.
  - reflexivity.
Defined.

(** An admitted call whose expiry check fails, or whose token is empty,
    enters [RefreshToken] exactly once. *)
Lemma GetAccessClient_refreshes_once (ae : access_env) (w w1 : World) :
  getLimiter (a_ctx ae) (a_pick ae) w = Ok tt w1 →
  closing w = false →
  Before (accessTokenExpiresAt (eb w)) (a_now ae)
  || (String.length (accessToken (eb w)) <? 1)%nat = true →
  refreshes (trace (world_of (GetAccessClient ae w))) = S (refreshes (trace w)).
Proof.
  intros Hadm Hcl Hexp. unfold GetAccessClient.
  destruct (getLimiter_frame (a_ctx ae) (a_pick ae) w) as (He & Hc & Ht & _).
  rewrite Hadm in *. simpl in *. rewrite Hc, Hcl, He, Hexp.
  pose proof (RefreshToken_refreshes 0 (a_refresh ae) w1) as Hr.
  rewrite Ht in Hr.
  by destruct (RefreshToken 0 (a_refresh ae) w1) as [[] w2|e w2|w2|m w2].
Qed.

(** C5. With a non-empty cached token whose expiry lies strictly after the
    current time, [GetAccessClient] never enters [RefreshToken] (its trace
    and the cache stay as they are), and once the limiter has admitted the
    call it returns a handle whose [Authorization] header carries the
    cached token. *)
Theorem valid_token_no_refresh (ae : access_env) (w : World) :
  accessToken (eb w) ≠ EmptyString →
  a_now ae < accessTokenExpiresAt (eb w) →
  trace (world_of (GetAccessClient ae w)) = trace w
  ∧ eb (world_of (GetAccessClient ae w)) = eb w
  ∧ (∀ w1, getLimiter (a_ctx ae) (a_pick ae) w = Ok tt w1 →
           closing w = false →
           GetAccessClient ae w = Ok (Bearer w1) w1
           ∧ cl_headers (Bearer w1) !! 0%nat
             = Some ("Authorization", "Bearer " +:+ accessToken (eb w))).
Proof.
  intros Htok Hnow. unfold GetAccessClient.
  assert (Hfresh : Before (accessTokenExpiresAt (eb w)) (a_now ae)
                   || (String.length (accessToken (eb w)) <? 1)%nat = false).
  { apply orb_false_iff. split.
    - unfold Before. apply Z.ltb_ge. lia.
    - destruct (_ <? 1)%nat eqn:E; [|done]. by apply length_lt_1 in E. }
  case_limiter (a_ctx ae) (a_pick ae) w; try (repeat split; done).
  rewrite He, Hfresh.
  destruct (closing w0) eqn:Hcl; simpl.
  - split; [done|split; [done|]]. intros w' _ Hw. congruence.
  - split; [done|split; [done|]]. intros w' [= <-] _.
    split; [done|]. unfold Bearer. simpl. by rewrite He.
Qed.

Lemma valid_token_no_refresh_witness :
  let w := mkWorld
             (mkEasemob ureq_New "h" "o" "a" "i" "s" "tok" 5000 0%nat 0%nat)
             [Chan 1 0 false] [Ticker Second false false] (LSelect 0) false [] in
  let ae := mkAccessEnv None true 4999
              (mkRefreshEnv None true (TransportError "unreachable") 4999) in
  trace (world_of (GetAccessClient ae w)) = trace w
  ∧ eb (world_of (GetAccessClient ae w)) = eb w
  ∧ (∀ w1, getLimiter (a_ctx ae) (a_pick ae) w = Ok tt w1 →
           closing w = false →
           GetAccessClient ae w = Ok (Bearer w1) w1
           ∧ cl_headers (Bearer w1) !! 0%nat
             = Some ("Authorization", "Bearer " +:+ accessToken (eb w))).
Proof.
  intros w ae. apply (valid_token_no_refresh ae w).
  - discriminate.
  - reflexivity.
Defined.

(** C4, as amended. With an empty cached token, a call that the limiter
    has admitted enters [RefreshToken] exactly once.  When the call
    succeeds, the cached token is the token of the response and the cached
    expiry is the instant of the commit plus [expires_in] seconds, the
    product being an int64 number of nanoseconds (exact for up to 292
    years).  An [expires_in] of 0 makes the expiry the instant of the
    commit, so that every admitted call at a later instant refreshes
    again. *)
Theorem empty_token_one_refresh (ae : access_env) (w w1 : World) :
  accessToken (eb w) = EmptyString →
  getLimiter (a_ctx ae) (a_pick ae) w = Ok tt w1 →
  closing w = false →
  refreshes (trace (world_of (GetAccessClient ae w))) = S (refreshes (trace w))
  ∧ (∀ c w2, GetAccessClient ae w = Ok c w2 →
       ∃ res resp,
         r_http (a_refresh ae) = Response res ∧ res_JSON res = inl resp
         ∧ accessToken (eb w2) = AccessToken resp
         ∧ accessTokenExpiresAt (eb w2)
           = Add (r_now (a_refresh ae)) (seconds (ExpiresIn resp))
         ∧ c = Bearer w2
         ∧ (-9223372036 ≤ ExpiresIn resp ≤ 9223372036 →
            accessTokenExpiresAt (eb w2)
            = r_now (a_refresh ae) + ExpiresIn resp * Second)
         ∧ (ExpiresIn resp = 0 →
            accessTokenExpiresAt (eb w2) = r_now (a_refresh ae)
            ∧ ∀ ae' w3,
                r_now (a_refresh ae) < a_now ae' →
                getLimiter (a_ctx ae') (a_pick ae') w2 = Ok tt w3 →
                refreshes (trace (world_of (GetAccessClient ae' w2)))
                = S (refreshes (trace w2)))).
Proof.
  intros Htok Hadm Hcl.
  assert (Hexp : Before (accessTokenExpiresAt (eb w)) (a_now ae)
                 || (String.length (accessToken (eb w)) <? 1)%nat = true)
    by (rewrite Htok; apply orb_true_r).
  split; [by eapply GetAccessClient_refreshes_once|].
  intros c w2. unfold GetAccessClient.
  destruct (getLimiter_frame (a_ctx ae) (a_pick ae) w) as (He & Hc & _).
  rewrite Hadm in *. simpl in *. rewrite Hc, Hcl, He, Hexp.
  destruct (RefreshToken 0 (a_refresh ae) w1) as [[] w'|e w'|w'|m w'] eqn:Hr;
    try discriminate.
  intros [= <- <-].
  destruct (RefreshToken_Ok_inv _ _ _ _ Hr)
    as (res & resp & Hhttp & Hok & Hjs & Hne & Ht & Hx & _ & Hcl').
  exists res, resp. repeat split; try done.
  - intros Hrange. rewrite Hx. unfold Add. by rewrite seconds_exact.
  - rewrite Hx, H. unfold Add. rewrite seconds_exact; lia.
  - intros ae' w3 Hlater Hadm'.
    eapply GetAccessClient_refreshes_once; [done..|].
    apply orb_true_iff. left. rewrite Hx, H.
    unfold Before, Add. rewrite seconds_exact by lia. apply Z.ltb_lt. lia.
Qed.

Lemma empty_token_one_refresh_witness :
  refreshes (trace (world_of (GetAccessClient grant0 roomy)))
  = S (refreshes (trace roomy))
  ∧ (∀ c w2, GetAccessClient grant0 roomy = Ok c w2 →
       ∃ res resp,
         r_http (a_refresh grant0) = Response res ∧ res_JSON res = inl resp
         ∧ accessToken (eb w2) = AccessToken resp
         ∧ accessTokenExpiresAt (eb w2)
           = Add (r_now (a_refresh grant0)) (seconds (ExpiresIn resp))
         ∧ c = Bearer w2
         ∧ (-9223372036 ≤ ExpiresIn resp ≤ 9223372036 →
            accessTokenExpiresAt (eb w2)
            = r_now (a_refresh grant0) + ExpiresIn resp * Second)
         ∧ (ExpiresIn resp = 0 →
            accessTokenExpiresAt (eb w2) = r_now (a_refresh grant0)
            ∧ ∀ ae' w3,
                r_now (a_refresh grant0) < a_now ae' →
                getLimiter (a_ctx ae') (a_pick ae') w2 = Ok tt w3 →
                refreshes (trace (world_of (GetAccessClient ae' w2)))
                = S (refreshes (trace w2)))).
Proof.
  apply (empty_token_one_refresh grant0 roomy
           (world_of (getLimiter None true roomy)));
    reflexivity.
Defined.

(** C4, the claim as stated fails: a token granted with [expires_in] 0 is
    cached with the instant of the commit as its expiry, and the admitted
    call one nanosecond later refreshes again; the token is not treated as
    never expiring. *)
Lemma ttl0_token_is_not_never_expiring :
  let w2 := world_of (GetAccessClient grant0 roomy) in
  GetAccessClient grant0 roomy = Ok (Bearer w2) w2
  ∧ accessToken (eb w2) = "T"
  ∧ accessTokenExpiresAt (eb w2) = 1001
  ∧ refreshes (trace (world_of (GetAccessClient later w2)))
    = S (refreshes (trace w2))
  ∧ ¬ never_expiring 1001 w2.
Proof.
  intros w2.
  assert (Hagain : refreshes (trace (world_of (GetAccessClient later w2)))
                   = S (refreshes (trace w2))) by reflexivity.
  repeat split; try reflexivity.
  intros Hnever.
  specialize (Hnever later (world_of (getLimiter None true w2))).
  rewrite Hagain in Hnever.
  assert (Hlt : 1001 ≤ a_now later) by (simpl; lia).
  specialize (Hnever Hlt eq_refl). lia.
Qed.

(** ** The reset loop *)

Lemma limiter_run_add (a b : nat) : ∀ w,
  limiter_run (a + b) w = limiter_run b (limiter_run a w).
Proof.
  induction a as [|a IH]; intros w; simpl; [done|].
  destruct (limiter_step true w) as [w'|] eqn:Hs; [apply IH|].
  destruct b as [|b]; simpl; [done|]. by rewrite Hs.
Qed.

(** The drain takes the permits one at a time, three steps of the
    goroutine for each: from the loop test at counter [i], with [k]
    permits in a pool of capacity [n], it reaches the loop test at counter
    [i + k] with the pool empty, provided [i + k] stays within [n]. *)
Lemma drain_loop (k : nat) : ∀ (w : World) (n i : nat) (cl : bool),
  chans w !! limiterChan (eb w) = Some (Chan n k cl) →
  loop w = LCheck i →
  (i + k ≤ n)%nat →
  limiter_run (3 * k) w
  = set_loop (LCheck (i + k))
      (set_chans (<[limiterChan (eb w) := Chan n 0 cl]> (chans w)) w).
Proof.
  induction k as [|k IH]; intros [e cs ts pc cg tr] n i cl Hc Hpc Hle;
    simpl in Hc, Hpc; subst pc.
  - simpl. unfold set_loop, set_chans. simpl.
    by rewrite Nat.add_0_r, list_insert_id.
  - replace (3 * S k)%nat with (3 + 3 * k)%nat by lia.
    rewrite limiter_run_add.
    assert (Hlt : (limiterChan e < length cs)%nat) by (eapply lookup_lt_Some; eauto).
    assert (H3 : limiter_run 3 (mkWorld e cs ts (LCheck i) cg tr)
                 = mkWorld e (<[limiterChan e := Chan n k cl]> cs) ts
                     (LCheck (S i)) cg tr).
    { simpl. unfold limiter_step, capacity, chan_at. simpl. rewrite Hc. simpl.
      destruct (Nat.ltb_spec i n) as [_|Hge]; [|lia]. simpl.
      unfold chan_recv. simpl. by rewrite Hc. }
    rewrite H3. rewrite (IH _ n (S i) cl); simpl.
    + unfold set_loop, set_chans. simpl.
      by rewrite list_insert_insert_eq, Nat.add_succ_r.
    + by rewrite list_lookup_insert_eq.
    + done.
    + lia.
Qed.

(** A tick that finds the pool full: the drain runs to its end and leaves
    the pool empty, with the goroutine back at the top of its loop. *)
Lemma drain_full_pool (w : World) (n : nat) :
  chans w !! limiterChan (eb w) = Some (Chan n n false) →
  loop w = LCheck 0 →
  limiter_run (3 * n + 1) w
  = set_loop LTop (set_chans (<[limiterChan (eb w) := Chan n 0 false]> (chans w)) w).
Proof.
  intros Hc Hpc.
  assert (Hlt : (limiterChan (eb w) < length (chans w))%nat)
    by (eapply lookup_lt_Some; eauto).
  rewrite limiter_run_add, (drain_loop n w n 0 false Hc Hpc) by lia.
  simpl. unfold limiter_step, capacity, chan_at. simpl.
  rewrite list_lookup_insert_eq by done. simpl.
  by rewrite Nat.ltb_irrefl.
Qed.

(** X1. The reset of a full pool, from the select on: the tick of the ticker
    the goroutine listens to empties the pool, and a caller that was
    blocked is admitted. *)
Lemma reset_of_full_pool (w : World) (n tk : nat) (t : ticker) :
  chans w !! limiterChan (eb w) = Some (Chan n n false) →
  loop w = LSelect tk →
  tickers w !! tk = Some t → tk_stopped t = false →
  closing w = false →
  let w' := limiter_run (3 * n + 2) (tick tk w) in
  occupancy w' = 0%nat ∧ loop w' = LTop
  ∧ ((0 < n)%nat → ∀ pick, ∃ w'', getLimiter None pick w' = Ok tt w'').
Proof.
  intros Hc Hpc Htk Hst Hcl.
  assert (Hlt : (limiterChan (eb w) < length (chans w))%nat)
    by (eapply lookup_lt_Some; eauto).
  assert (Hltk : (tk < length (tickers w))%nat) by (eapply lookup_lt_Some; eauto).
  replace (3 * n + 2)%nat with (1 + (3 * n + 1))%nat by lia.
  rewrite limiter_run_add.
  assert (H1 : limiter_run 1 (tick tk w)
               = set_loop (LCheck 0)
                   (set_tickers (<[tk := Ticker (tk_period t) false false]> (tickers w)) w)).
  { unfold tick. rewrite Htk, Hst. simpl. unfold limiter_step, ticker_at. simpl.
    rewrite Hpc, Hcl, list_lookup_insert_eq by done. simpl.
    by rewrite list_insert_insert_eq. }
  rewrite H1, (drain_full_pool _ n) by done. simpl.
  repeat split.
  - unfold occupancy, chan_at. simpl. by rewrite list_lookup_insert_eq.
  - intros Hn pick. eexists. apply (getLimiter_room pick _ n 0); [|done].
    simpl. by rewrite list_lookup_insert_eq.
Qed.

(** A tick that finds fewer permits than the capacity: after taking them
    the goroutine parks inside the drain, on a receive from the empty
    pool, and can only go on when some caller sends. *)
Lemma drain_partial_pool_parks (w : World) (n k : nat) :
  chans w !! limiterChan (eb w) = Some (Chan n k false) →
  loop w = LCheck 0 →
  (k < n)%nat →
  let w' := limiter_run (3 * k + 2) w in
  loop w' = LRecvOn k (limiterChan (eb w))
  ∧ occupancy w' = 0%nat
  ∧ (∀ pick, limiter_step pick w' = None)
  ∧ ∀ m, limiter_run m w' = w'.
Proof.
  intros Hc Hpc Hk.
  assert (Hlt : (limiterChan (eb w) < length (chans w))%nat)
    by (eapply lookup_lt_Some; eauto).
  rewrite limiter_run_add, (drain_loop k w n 0 false Hc Hpc) by lia.
  remember (set_chans (<[limiterChan (eb w) := Chan n 0 false]> (chans w)) w)
    as W eqn:HW.
  assert (Heb : eb W = eb w) by (by subst W).
  assert (Hin : chans W !! limiterChan (eb W) = Some (Chan n 0 false))
    by (subst W; simpl; by rewrite list_lookup_insert_eq).
  assert (H2 : limiter_run 2 (set_loop (LCheck (0 + k)) W)
               = set_loop (LRecvOn k (limiterChan (eb W))) W).
  { simpl. unfold limiter_step, capacity, chan_at, chan_recv. simpl.
    rewrite Hin. simpl.
    by destruct (Nat.ltb_spec k n) as [_|Hge]; [|lia]. }
  rewrite <- Heb.
  rewrite H2.
  assert (Hpark : ∀ pick,
    limiter_step pick (set_loop (LRecvOn k (limiterChan (eb W))) W) = None).
  { intros pick. unfold limiter_step, chan_recv. simpl. by rewrite Hin. }
  repeat split.
  - unfold occupancy, chan_at. simpl. by rewrite Hin.
  - exact Hpark.
  - intros [|m]; simpl; [done|]. by rewrite Hpark.
Qed.

(** C1. The reset does not bring the pool back to empty in one step and on
    its own.  With one permit held in a pool of capacity 2, the goroutine
    takes that permit after the tick and then parks inside the drain,
    waiting for a permit that only a future caller can send; the permit of
    that caller is swallowed, so that three callers are admitted by a pool
    of capacity 2 before any further tick.  With the pool full, the permits
    go one by one: an occupancy of 1 is there to be seen. *)
Theorem reset_waits_for_future_acquisitions :
  let held := world_of (getLimiter None true half) in
  let w := limiter_run 100 (tick 1 held) in
  capacity half = 2%nat ∧ occupancy held = 1%nat
  ∧ loop w = LRecvOn 1 1 ∧ occupancy w = 0%nat
  ∧ (∀ pick, limiter_step pick w = None)
  ∧ (∃ w', play [AAcquire; ALoop 100; AAcquire; AAcquire] w = Some w'
           ∧ occupancy w' = 2%nat
           ∧ tk_pending (ticker_at 1 w') = false)
  ∧ (∃ w', play [AAcquire; AAcquire; ATick 1; ALoop 4] half = Some w'
           ∧ occupancy w' = 1%nat ∧ loop w' = LCheck 1).
Proof.
  repeat split; try reflexivity.
  - eexists. repeat split; reflexivity.
  - eexists. repeat split; reflexivity.
Qed.

(** C9. The fresh client has a pool of capacity 1 and a ticker of one
    second, and yet admits two callers between two ticks: when the first
    second goes by without a request, the goroutine parks inside the drain,
    takes the permit of the first caller that comes, and leaves the pool
    empty for the second. *)
Theorem fresh_client_admits_two_in_one_window :
  NewEasemob "a1.easemob.com" "org" "app" "id" "secret" = inl fresh
  ∧ capacity fresh = 1%nat
  ∧ tk_period (ticker_at (limiterResetTicker (eb fresh)) fresh) = Second
  ∧ ∃ w', play [ALoop 1; ATick 0; ALoop 100; AAcquire; ALoop 100; AAcquire] fresh
          = Some w'
          ∧ tk_pending (ticker_at 0 w') = false.
Proof.
  repeat split; try reflexivity.
  eexists. split; reflexivity.
Qed.

(** [SetLimiter] leaves the ticker it replaces as it is. *)
Lemma SetLimiter_keeps_old_ticker (rate : nat) (interval : Z) (w w' : World) :
  SetLimiter rate interval w = Ok tt w' →
  (limiterResetTicker (eb w) < length (tickers w))%nat →
  tickers w' !! limiterResetTicker (eb w) = tickers w !! limiterResetTicker (eb w)
  ∧ limiterResetTicker (eb w') = length (tickers w)
  ∧ tickers w' !! limiterResetTicker (eb w') = Some (Ticker interval false false)
  ∧ loop w' = loop w.
Proof.
  unfold SetLimiter. destruct (closing w); [discriminate|].
  destruct (interval <=? 0); [discriminate|].
  intros [= <-] Hlt. simpl. repeat split.
  - by rewrite lookup_app_l.
  - by rewrite lookup_app_r, Nat.sub_diag.
Qed.

(** C2. [SetLimiter] installs the new ticker and the new pool without
    stopping the previous ticker.  On the fresh client, whose goroutine is
    parked on the one-second ticker: after [SetLimiter(2, time.Hour)] both
    tickers run, the goroutine still listens to the old one, and the next
    tick of the old ticker drains the new pool although the new ticker has
    not fired. *)
Theorem SetLimiter_leaves_old_ticker_running :
  let w0 := limiter_run 1 fresh in
  let w1 := world_of (SetLimiter 2 (3600 * Second) w0) in
  SetLimiter 2 (3600 * Second) w0 = Ok tt w1
  ∧ limiterResetTicker (eb w0) = 0%nat ∧ limiterResetTicker (eb w1) = 1%nat
  ∧ tk_stopped (ticker_at 0 w1) = false ∧ tk_stopped (ticker_at 1 w1) = false
  ∧ loop w1 = LSelect 0
  ∧ ∃ w', play [AAcquire; AAcquire; ATick 0; ALoop 100] w1 = Some w'
          ∧ occupancy (world_of (getLimiter None true (world_of (getLimiter None true w1))))
            = 2%nat
          ∧ occupancy w' = 0%nat
          ∧ tk_pending (ticker_at 1 w') = false.
Proof.
  repeat split; try reflexivity.
  eexists. repeat split; reflexivity.
Qed.

(** ** Shutdown *)

(** Neither a tick nor a step of the goroutine reopens a channel or
    changes the fields of the client. *)
Lemma env_step_closed (w w' : World) :
  env_step w w' →
  eb w' = eb w ∧ ∀ c, closed_at c w → closed_at c w'.
Proof.
  intros [tk w1|pick w1 w2 Hstep].
  - unfold tick. destruct (tickers w1 !! tk) as [t|]; [|done].
    by destruct (tk_stopped t).
  - unfold limiter_step in Hstep.
    destruct (loop w1) as [|tk|i|i|i c'|].
    + destruct (tickers w1 !! _); by injection Hstep as <-.
    + destruct (tk_pending _), (closing w1), pick; try discriminate;
        by injection Hstep as <-.
    + destruct (Nat.ltb i _); by injection Hstep as <-.
    + by injection Hstep as <-.
    + unfold chan_recv in Hstep.
      destruct (chans w1 !! c') as [[cp ln cl]|] eqn:Hc'; [|discriminate].
      simpl in Hstep. destruct ln as [|ln].
      * destruct cl; [|discriminate]. by injection Hstep as <-.
      * injection Hstep as <-. simpl. split; [done|].
        intros c (ch & Hc & Hcl). unfold closed_at. simpl.
        destruct (decide (c = c')) as [->|Hne].
        -- rewrite list_lookup_insert_eq by (eapply lookup_lt_Some; eauto).
           eexists. split; [done|]. rewrite Hc' in Hc. by injection Hc as <-.
        -- rewrite list_lookup_insert_ne by done. eauto.
    + discriminate.
Qed.

(** [Close] leaves the pool closed while it waits for the goroutine. *)
Lemma Close_closes (w0 w1 : World) :
  closing w0 = false → Close w0 = Blocked w1 →
  closed_at (limiterChan (eb w1)) w1 ∧ closing w1 = true.
Proof.
  intros Hfree HClose. unfold Close in HClose. rewrite Hfree in HClose.
  destruct (tickers w0 !! _) as [t|]; [|discriminate].
  simpl in HClose.
  destruct (chans w0 !! limiterChan (eb w0)) as [ch|] eqn:Hc; [|discriminate].
  destruct (ch_closed ch); [discriminate|].
  injection HClose as <-. unfold closed_at. simpl.
  rewrite list_lookup_insert_eq by (eapply lookup_lt_Some; eauto).
  eauto.
Qed.

(** No caller is admitted on a closed pool; in particular none gets past
    the limiter while [Close] holds the lock. *)
Lemma closed_no_admission (c : nat) (ctx : context) (pick : bool) (w w' : World) :
  closed_at c w → getLimiter_on c ctx pick w ≠ Ok tt w'.
Proof.
  intros (ch & Hc & Hcl). unfold getLimiter_on, send_ready, chan_send.
  rewrite Hc, Hcl. simpl. by destruct ctx as [e|]; [destruct pick|].
Qed.

Lemma after_Close_closed (w0 w : World) :
  after_Close w0 w → closed_at (limiterChan (eb w)) w.
Proof.
  intros (w1 & Hfree & HClose & Hsteps & _).
  destruct (Close_closes _ _ Hfree HClose) as (H1 & _).
  clear HClose Hfree.
  induction Hsteps as [w1|w1 w2 w3 Hstep _ IH]; [done|].
  apply IH. destruct (env_step_closed _ _ Hstep) as (He & Hcl).
  rewrite He. by apply Hcl.
Qed.

(** A send on a closed pool: the panic when the context is live, and
    either the panic or the error of the context once it is done. *)
Lemma getLimiter_closed (w : World) :
  closed_at (limiterChan (eb w)) w →
  (∀ pick, getLimiter None pick w = Panic "send on closed channel" w)
  ∧ (∀ e, getLimiter (Some e) true w = Panic "send on closed channel" w
          ∧ getLimiter (Some e) false w = Err e w).
Proof.
  intros (ch & Hc & Hcl).
  unfold getLimiter, getLimiter_on, send_ready, chan_send.
  rewrite Hc, Hcl. simpl. done.
Qed.

(** C10, as amended. Once [Close] has run, every acquisition whose
    context is still live panics on the send to the closed pool, be it in
    [getLimiter], [GetBaseClient], [GetAccessClient] or [RefreshToken]; an
    acquisition whose context is already done panics or returns the error
    of the context, as the select chooses. *)
Theorem acquire_after_Close (w0 w : World) :
  after_Close w0 w →
  (∀ pick, getLimiter None pick w = Panic "send on closed channel" w)
  ∧ (∀ pick, GetBaseClient None pick w = Panic "send on closed channel" w)
  ∧ (∀ ae, a_ctx ae = None →
           GetAccessClient ae w = Panic "send on closed channel" w)
  ∧ (∀ ttl re, r_ctx re = None →
               RefreshToken ttl re w
               = Panic "send on closed channel" (log (EvRefreshToken ttl) w))
  ∧ (∀ e, getLimiter (Some e) true w = Panic "send on closed channel" w
          ∧ getLimiter (Some e) false w = Err e w).
Proof.
  intros Hafter. apply after_Close_closed in Hafter.
  destruct (getLimiter_closed w Hafter) as (Hlive & Hdone).
  repeat split; try apply Hdone.
  - exact Hlive.
  - intros pick. unfold GetBaseClient. by rewrite Hlive.
  - intros ae Hctx. unfold GetAccessClient. by rewrite Hctx, Hlive.
  - intros ttl re Hctx. unfold RefreshToken, GetBaseClient.
    by rewrite getLimiter_log, Hctx, Hlive.
Qed.

Lemma after_Close_shut : after_Close (limiter_run 1 fresh) shut.
Proof.
  eexists. split; [reflexivity|]. split; [reflexivity|].
  split; [|split; reflexivity].
  eapply rtc_l; [|apply rtc_refl].
  by apply (env_limiter true).
Qed.

Lemma acquire_after_Close_witness :
  (∀ pick, getLimiter None pick shut = Panic "send on closed channel" shut)
  ∧ (∀ pick, GetBaseClient None pick shut = Panic "send on closed channel" shut)
  ∧ (∀ ae, a_ctx ae = None →
           GetAccessClient ae shut = Panic "send on closed channel" shut)
  ∧ (∀ ttl re, r_ctx re = None →
               RefreshToken ttl re shut
               = Panic "send on closed channel" (log (EvRefreshToken ttl) shut))
  ∧ (∀ e, getLimiter (Some e) true shut = Panic "send on closed channel" shut
          ∧ getLimiter (Some e) false shut = Err e shut).
Proof.
  apply (acquire_after_Close (limiter_run 1 fresh) shut).
  apply after_Close_shut.
Defined.

(** C10, the claim as stated fails: after [Close] has run, a caller whose
    context is already cancelled may get the cancellation error back, from
    [getLimiter] and so from [GetBaseClient] and [GetAccessClient], instead
    of a panic. *)
Lemma cancelled_acquire_after_Close_returns_error :
  after_Close (limiter_run 1 fresh) shut
  ∧ getLimiter (Some Canceled) false shut = Err Canceled shut
  ∧ GetBaseClient (Some Canceled) false shut = Err Canceled shut
  ∧ GetAccessClient (mkAccessEnv (Some Canceled) false 1000 (a_refresh later)) shut
    = Err Canceled shut
  ∧ ¬ (∀ ctx pick, ∃ m w', getLimiter ctx pick shut = Panic m w').
Proof.
  split; [apply after_Close_shut|].
  repeat split.
  intros Hall. destruct (Hall (Some Canceled) false) as (m & w' & H).
  discriminate H.
Qed.

(** A [SetLimiter] after [Close] installs an open pool again, on which
    callers are admitted: the panic belongs to the closed channel, not to
    the client. *)
Example acquire_after_Close_and_SetLimiter :
  ∃ w, SetLimiter 1 Second shut = Ok tt w
       ∧ getLimiter None true w
         = Ok tt (set_chans (<[limiterChan (eb w) := Chan 1 1 false]> (chans w)) w).
Proof. eexists. split; reflexivity. Qed.

(** ** The invariant of a client *)

Lemma bounded_insert (cs : list chan) (i : nat) (x : chan) :
  bounded cs → (ch_len x ≤ ch_cap x)%nat → bounded (<[i := x]> cs).
Proof.
  intros Hb Hx c ch Hc.
  apply list_lookup_insert_Some in Hc as [(_ & <- & _)|(_ & Hc)]; [done|].
  by eapply Hb.
Qed.

Lemma wf_tick (tk : nat) (w : World) : wf w → wf (tick tk w).
Proof.
  intros [H1 H2 H3 H5]. unfold tick.
  destruct (tickers w !! tk) as [t|]; [|done].
  destruct (tk_stopped t); [done|].
  split; simpl; rewrite ?length_insert; try done.
Qed.

Lemma wf_limiter_step (pick : bool) (w w' : World) :
  wf w → limiter_step pick w = Some w' → wf w'.
Proof.
  intros [H1 H2 H3 H5] Hstep. unfold limiter_step in Hstep.
  destruct (loop w) as [|tk|i|i|i c|] eqn:Hpc.
  - destruct (tickers w !! _); injection Hstep as <-; by split.
  - assert (Hexit : wf (set_loop LExit (set_closing false w))) by (by split).
    assert (Htick : wf (set_loop (LCheck 0)
               (set_tickers (<[tk := Ticker (tk_period (ticker_at tk w))
                                        (tk_stopped (ticker_at tk w)) false]>
                               (tickers w)) w)))
      by (split; simpl; rewrite ?length_insert; done).
    destruct (tk_pending _), (closing w), pick; try discriminate;
      by injection Hstep as <-.
  - destruct (Nat.ltb i _); injection Hstep as <-; by split.
  - injection Hstep as <-. by split.
  - unfold chan_recv in Hstep.
    destruct (chans w !! c) as [[cp ln cl]|] eqn:Hc; [|discriminate].
    simpl in Hstep. destruct ln as [|ln].
    + destruct cl; [|discriminate]. injection Hstep as <-. by split.
    + injection Hstep as <-.
      split; simpl; rewrite ?length_insert; try done.
      apply bounded_insert; [done|]. simpl.
      specialize (H3 _ _ Hc). simpl in H3. lia.
  - discriminate.
Qed.

Lemma wf_acquire (c : nat) (ctx : context) (pick : bool) (w : World) :
  wf w → wf (world_of (getLimiter_on c ctx pick w)).
Proof.
  intros Hwf. pose proof Hwf as [H1 H2 H3 H5].
  unfold getLimiter_on, send_ready, chan_send.
  destruct (chans w !! c) as [[cp ln cl]|] eqn:Hc; simpl;
    [|by destruct ctx].
  destruct cl; simpl; [by destruct ctx as [e|]; [destruct pick|]|].
  destruct (Nat.eqb_spec cp 0) as [->|Hcp].
  - unfold receiver_on.
    destruct (loop w) as [| | | |i c'|] eqn:Hpc; try (by destruct ctx).
    destruct (Nat.eqb c c'); [|by destruct ctx].
    assert (wf (set_loop (LCheck (S i)) w)) by (by split).
    by destruct ctx as [e|]; [destruct pick|].
  - destruct (Nat.ltb_spec ln cp) as [Hlt|Hge]; [|by destruct ctx].
    assert (wf (set_chans (<[c := Chan cp (S ln) false]> (chans w)) w)).
    { split; simpl; rewrite ?length_insert; try done.
      apply bounded_insert; [done|]. simpl. lia. }
    by destruct ctx as [e|]; [destruct pick|].
Qed.

Lemma wf_SetLimiter (rate : nat) (interval : Z) (w : World) :
  wf w → wf (world_of (SetLimiter rate interval w)).
Proof.
  intros Hwf. pose proof Hwf as [H1 H2 H3 H5]. unfold SetLimiter.
  destruct (closing w) eqn:Hcl; [done|].
  destruct (interval <=? 0); [done|]. simpl.
  split; simpl; rewrite ?length_app; simpl; try lia.
  - intros c ch Hc. apply lookup_app_Some in Hc as [Hc|(_ & Hc)]; [by eapply H3|].
    apply list_lookup_singleton_Some in Hc as (_ & <-). simpl. lia.
  - destruct (loop w); try done; lia.
Qed.

Lemma wf_Close (w : World) : wf w → wf (world_of (Close w)).
Proof.
  intros Hwf. pose proof Hwf as [H1 H2 H3 H5]. unfold Close.
  destruct (closing w) eqn:Hcl; [done|].
  destruct (tickers w !! _) as [t|]; [|done]. simpl.
  set (ts := <[_ := _]> (tickers w)).
  assert (Hw1 : wf (set_tickers ts w))
    by (split; simpl; subst ts; rewrite ?length_insert; done).
  destruct (chans w !! limiterChan (eb w)) as [ch|] eqn:Hc; [|done].
  destruct (ch_closed ch); [done|]. simpl.
  split; simpl; subst ts; rewrite ?length_insert; try done.
  apply bounded_insert; [done|]. simpl. by eapply H3.
Qed.

Lemma wf_step (senders : nat → Prop) (w w' : World) :
  wf w → step senders w w' → wf w'.
Proof.
  intros Hwf Hstep.
  destruct Hstep as [tk w1|pick w1 w2 Hs|c ctx pick w1 _|ev w1|tok exp w1 _|d w1 _
                    |rate interval w1|w1].
  - by apply wf_tick.
  - by eapply wf_limiter_step.
  - by apply wf_acquire.
  - destruct Hwf. by split.
  - destruct Hwf. by split.
  - destruct Hwf. by split.
  - by apply wf_SetLimiter.
  - by apply wf_Close.
Qed.

Lemma wf_NewEasemob (h o a i s : string) (w : World) :
  NewEasemob h o a i s = inl w → wf w.
Proof.
  unfold NewEasemob. destruct (_ || _); [discriminate|]. intros [= <-].
  split; simpl; try lia; try done.
  intros [|c] ch Hc; simpl in Hc; [|done]. injection Hc as <-. simpl. lia.
Qed.

(** No move of the world writes the address or the credentials of the
    client. *)
Lemma step_keeps_credentials (senders : nat → Prop) (w w' : World) :
  step senders w w' →
  host (eb w') = host (eb w) ∧ orgName (eb w') = orgName (eb w)
  ∧ appName (eb w') = appName (eb w) ∧ clientId (eb w') = clientId (eb w)
  ∧ clientSecret (eb w') = clientSecret (eb w).
Proof.
  intros Hstep.
  destruct Hstep as [tk w1|pick w1 w2 Hs|c ctx pick w1 _|ev w1|tok exp w1 _|d w1 _
                    |rate interval w1|w1]; try done.
  - unfold tick. destruct (tickers w1 !! tk) as [t|]; [|done].
    by destruct (tk_stopped t).
  - assert (He : eb w2 = eb w1); [|by rewrite He].
    unfold limiter_step in Hs.
    destruct (loop w1) as [|tk|i|i|i c|].
    + destruct (tickers w1 !! _); by injection Hs as <-.
    + destruct (tk_pending _), (closing w1), pick; try discriminate;
        by injection Hs as <-.
    + destruct (Nat.ltb i _); by injection Hs as <-.
    + by injection Hs as <-.
    + unfold chan_recv in Hs.
      destruct (chans w1 !! c) as [[cp [|ln] cl]|]; try discriminate.
      * destruct cl; [|discriminate]. by injection Hs as <-.
      * by injection Hs as <-.
    + discriminate.
  - assert (He : eb (world_of (getLimiter_on c ctx pick w1)) = eb w1);
      [|by rewrite He].
    unfold getLimiter_on, chan_send.
    destruct (send_ready c w1), ctx as [e|]; [destruct pick| | |]; simpl;
      try done;
      destruct (chans w1 !! c) as [ch|]; simpl; try done;
      destruct (ch_closed ch); simpl; try done;
      destruct (Nat.eqb _ 0); simpl; try done;
      destruct (loop w1) as [| | | |i c'|]; simpl; try done;
      destruct (Nat.eqb c c'); simpl; done.
  - unfold SetLimiter. destruct (closing w1); [done|].
    by destruct (interval <=? 0).
  - unfold Close. destruct (closing w1); [done|].
    destruct (tickers w1 !! _) as [t|]; [|done]. simpl.
    destruct (chans w1 !! _) as [ch|]; [|done].
    by destruct (ch_closed ch).
Qed.

(** X2. On a client built by [NewEasemob], whatever happens afterwards: the
    channel and the ticker the client holds exist, no channel ever holds
    more permits than its capacity, so that the occupancy of the pool stays
    within its capacity, and the address and the credentials the client
    was built with are never written again. *)
Theorem client_invariant (senders : nat → Prop) (h o a i s : string)
    (w0 w : World) :
  NewEasemob h o a i s = inl w0 →
  rtc (step senders) w0 w →
  wf w
  ∧ (occupancy w ≤ capacity w)%nat
  ∧ is_Some (chans w !! limiterChan (eb w))
  ∧ is_Some (tickers w !! limiterResetTicker (eb w))
  ∧ host (eb w) = h ∧ orgName (eb w) = o ∧ appName (eb w) = a
  ∧ clientId (eb w) = i ∧ clientSecret (eb w) = s.
Proof.
  intros Hnew Hsteps.
  assert (Hinit : host (eb w0) = h ∧ orgName (eb w0) = o ∧ appName (eb w0) = a
                  ∧ clientId (eb w0) = i ∧ clientSecret (eb w0) = s).
  { unfold NewEasemob in Hnew. destruct (_ || _); [discriminate|].
    by injection Hnew as <-. }
  apply wf_NewEasemob in Hnew.
  assert (Hall : wf w
                 ∧ host (eb w) = h ∧ orgName (eb w) = o ∧ appName (eb w) = a
                 ∧ clientId (eb w) = i ∧ clientSecret (eb w) = s).
  { induction Hsteps as [w|w1 w2 w3 Hs _ IH]; [done|].
    apply IH; [by eapply wf_step|].
    destruct (step_keeps_credentials _ _ _ Hs) as (-> & -> & -> & -> & ->).
    exact Hinit. }
  destruct Hall as (Hwf & Hcred). pose proof Hwf as [H1 H2 H3 H5].
  split; [done|]. split; [|split; [|split]]; [| | |done].
  - unfold occupancy, capacity, chan_at.
    destruct (chans w !! limiterChan (eb w)) as [ch|] eqn:Hc; simpl; [|lia].
    by eapply H3.
  - by apply lookup_lt_is_Some.
  - by apply lookup_lt_is_Some.
Qed.

(** *** The calls of the interface are sequences of moves *)

Section Calls.
Context (senders : nat → Prop).

Lemma getLimiter_steps (ctx : context) (pick : bool) (w : World) :
  rtc (step senders) w (world_of (getLimiter ctx pick w)).
Proof. apply rtc_once, step_acquire. by left. Qed.

Lemma GetBaseClient_steps (ctx : context) (pick : bool) (w : World) :
  rtc (step senders) w (world_of (GetBaseClient ctx pick w)).
Proof.
  unfold GetBaseClient.
  pose proof (getLimiter_steps ctx pick w) as Hs.
  destruct (getLimiter ctx pick w) as [[] w1|e w1|w1|m w1]; simpl in *; try done.
  by destruct (closing w1).
Qed.

Lemma RefreshToken_steps (ttl : Z) (re : refresh_env) (w : World) :
  rtc (step senders) w (world_of (RefreshToken ttl re w)).
Proof.
  unfold RefreshToken.
  eapply rtc_l; [apply (step_log senders (EvRefreshToken ttl))|].
  pose proof (GetBaseClient_steps (r_ctx re) (r_pick re)
                (log (EvRefreshToken ttl) w)) as Hs.
  destruct (GetBaseClient _ _ _) as [c w1|e w1|w1|m w1] eqn:Hg; simpl in *;
    try done.
  assert (Hfree : closing w1 = false).
  { unfold GetBaseClient in Hg.
    destruct (getLimiter _ _ _) as [[] w2|e w2|w2|m w2]; try discriminate.
    destruct (closing w2) eqn:Hcl; [discriminate|]. by injection Hg as _ <-. }
  assert (Hpost : rtc (step senders) (log (EvRefreshToken ttl) w) (log EvPost w1))
    by (eapply rtc_r; [exact Hs|apply step_log]).
  destruct (r_http re) as [e|res]; simpl; [done|].
  destruct (res_OK res); simpl; [|done].
  destruct (res_JSON res) as [resp|e]; simpl; [|done].
  destruct (_ <? 1)%nat; simpl; [done|].
  rewrite Hfree. simpl.
  eapply rtc_r; [exact Hpost|].
  by apply (step_commit senders (AccessToken resp)
              (Add (r_now re) (seconds (ExpiresIn resp))) (log EvPost w1)).
Qed.

Lemma GetAccessClient_steps (ae : access_env) (w : World) :
  rtc (step senders) w (world_of (GetAccessClient ae w)).
Proof.
  unfold GetAccessClient.
  pose proof (getLimiter_steps (a_ctx ae) (a_pick ae) w) as Hs.
  destruct (getLimiter _ _ w) as [[] w1|e w1|w1|m w1]; simpl in *; try done.
  destruct (closing w1); [done|].
  destruct (_ || _); [|done].
  pose proof (RefreshToken_steps 0 (a_refresh ae) w1) as Hr.
  assert (Hall : rtc (step senders) w (world_of (RefreshToken 0 (a_refresh ae) w1)))
    by (by etrans).
  by destruct (RefreshToken 0 (a_refresh ae) w1) as [[] w2|e w2|w2|m w2].
Qed.

Lemma PushSync_steps (strategy : Z) (target : string) (msg : option PushMessage)
    (pe : push_env PushSyncRespData) (w : World) :
  rtc (step senders) w (world_of (PushSync strategy target msg pe w)).
Proof.
  unfold PushSync.
  pose proof (GetAccessClient_steps (p_access pe) w) as Hs.
  destruct (GetAccessClient _ w) as [c w1|e w1|w1|m w1]; simpl in *; try done.
  destruct (closing w1); [done|].
  destruct (p_http pe) as [e|res]; [done|].
  destruct (pr_OK res); simpl; [|done].
  destruct (pr_JSON res) as [resp|e]; [|done].
  by destruct (scan_statuses _).
Qed.

Lemma PushSingle_steps (strategy : Z) (targets : list string)
    (msg : option PushMessage) (pe : push_env PushSingleRespData) (w : World) :
  rtc (step senders) w (world_of (PushSingle strategy targets msg pe w)).
Proof.
  unfold PushSingle.
  pose proof (GetAccessClient_steps (p_access pe) w) as Hs.
  destruct (GetAccessClient _ w) as [c w1|e w1|w1|m w1]; simpl in *; try done.
  destruct (Nat.ltb 100 _); [done|].
  destruct (closing w1); [done|].
  destruct (p_http pe) as [e|res]; [done|].
  destruct (pr_OK res); simpl; [|done].
  by destruct (pr_JSON res) as [resp|e].
Qed.

Lemma SetClientTimeout_steps (d : Z) (w : World) :
  rtc (step senders) w (world_of (SetClientTimeout d w)).
Proof.
  unfold SetClientTimeout. destruct (closing w) eqn:Hcl; [done|].
  by apply rtc_once, step_timeout.
Qed.

End Calls.

(** ** Reconfiguration while callers or the goroutine are parked *)

Lemma orphaned_step (senders : nat → Prop) (i c : nat) (w w' : World) :
  ¬ senders c → orphaned i c w → step senders w w' → orphaned i c w'.
Proof.
  intros Hns (Hpc & (n & Hc) & Hne) Hstep.
  assert (Hlt : (c < length (chans w))%nat) by (eapply lookup_lt_Some; eauto).
  destruct Hstep as [tk w|pick w w2 Hs|c0 ctx pick w Hc0|ev w|tok exp w _|d w _
                    |rate interval w|w].
  - unfold tick. destruct (tickers w !! tk) as [t|]; [|by repeat split; eauto].
    destruct (tk_stopped t); by repeat split; eauto.
  - unfold limiter_step, chan_recv in Hs. rewrite Hpc, Hc in Hs. discriminate.
  - assert (Hc0c : c0 ≠ c) by (destruct Hc0 as [->|Hs]; [done|by intros ->]).
    unfold getLimiter_on, send_ready, chan_send, receiver_on. rewrite Hpc.
    destruct (chans w !! c0) as [[cp ln cl]|] eqn:Hc0'; simpl;
      [|destruct ctx; by repeat split; eauto].
    destruct cl; simpl;
      [destruct ctx as [e|]; [destruct pick|]; by repeat split; eauto|].
    destruct (Nat.eqb_spec cp 0) as [->|Hcp].
    + destruct (Nat.eqb_spec c0 c) as [->|_]; [done|].
      destruct ctx; by repeat split; eauto.
    + assert (Hkeep : orphaned i c
                (set_chans (<[c0 := Chan cp (S ln) false]> (chans w)) w)).
      { repeat split; simpl; [done| |done].
        exists n. by rewrite list_lookup_insert_ne. }
      destruct (Nat.ltb ln cp); destruct ctx as [e|]; [destruct pick| | |];
        simpl; try done; by repeat split; eauto.
  - by repeat split; eauto.
  - by repeat split; eauto.
  - by repeat split; eauto.
  - unfold SetLimiter. destruct (closing w); [by repeat split; eauto|].
    destruct (interval <=? 0); [by repeat split; eauto|]. simpl.
    repeat split; simpl; [done| |lia].
    exists n. by rewrite lookup_app_l.
  - unfold Close. destruct (closing w); [by repeat split; eauto|].
    destruct (tickers w !! _) as [t|]; [|by repeat split; eauto]. simpl.
    destruct (chans w !! limiterChan (eb w)) as [ch|]; [|by repeat split; eauto].
    destruct (ch_closed ch); [by repeat split; eauto|]. simpl.
    repeat split; simpl; [done| |done].
    exists n. by rewrite list_lookup_insert_ne.
Qed.

(** X3. A [SetLimiter] that comes while the goroutine is parked inside its
    drain (on a receive from the empty pool) leaves the goroutine on the
    old channel for good: whatever the client is asked to do afterwards,
    as long as no caller sends on the old channel, the goroutine never
    takes another step, so that no pool is ever reset again and a [Close]
    is never answered. *)
Theorem SetLimiter_during_drain_orphans_goroutine (senders : nat → Prop)
    (w w1 w' : World) (i n rate : nat) (interval : Z) :
  ¬ senders (limiterChan (eb w)) →
  loop w = LRecvOn i (limiterChan (eb w)) →
  chans w !! limiterChan (eb w) = Some (Chan (S n) 0 false) →
  SetLimiter rate interval w = Ok tt w1 →
  rtc (step senders) w1 w' →
  loop w' = LRecvOn i (limiterChan (eb w))
  ∧ (∀ pick, limiter_step pick w' = None)
  ∧ limiterChan (eb w') ≠ limiterChan (eb w).
Proof.
  intros Hns Hpc Hc Hset Hsteps.
  assert (Hlt : (limiterChan (eb w) < length (chans w))%nat)
    by (eapply lookup_lt_Some; eauto).
  assert (H1 : orphaned i (limiterChan (eb w)) w1).
  { unfold SetLimiter in Hset. destruct (closing w); [discriminate|].
    destruct (interval <=? 0); [discriminate|]. injection Hset as <-.
    repeat split; simpl; [done| |lia].
    exists n. by rewrite lookup_app_l. }
  assert (H' : orphaned i (limiterChan (eb w)) w').
  { clear Hset. induction Hsteps as [w1|w1 w2 w3 Hs _ IH]; [done|].
    apply IH. by eapply orphaned_step. }
  destruct H' as (Hpc' & (n' & Hc') & Hne'). repeat split; [done| |done].
  intros pick. unfold limiter_step, chan_recv. by rewrite Hpc', Hc'.
Qed.

Lemma SetLimiter_during_drain_orphans_goroutine_witness :
  let w := limiter_run 100 (tick 0 (limiter_run 1 fresh)) in
  let w1 := world_of (SetLimiter 3 Second w) in
  let w' := tick 1 (world_of (getLimiter None true w1)) in
  loop w' = LRecvOn 0 (limiterChan (eb w))
  ∧ (∀ pick, limiter_step pick w' = None)
  ∧ limiterChan (eb w') ≠ limiterChan (eb w).
Proof.
  intros w w1 w'.
  apply (SetLimiter_during_drain_orphans_goroutine (λ _, False) w w1 w' 0 0 3 Second).
  - simpl. tauto.
  - reflexivity.
  - reflexivity.
  - reflexivity.
  - eapply rtc_l; [apply (step_acquire _ (limiterChan (eb w1)) None true); by left|].
    eapply rtc_l; [apply (step_tick _ 1)|]. apply rtc_refl.
Defined.

Lemma stranded_step (senders : nat → Prop) (c n : nat) (w w' : World) :
  stranded c n w → step senders w w' → stranded c n w'.
Proof.
  intros (Hc & Hne & Hrecv) Hstep.
  assert (Hlt : (c < length (chans w))%nat) by (eapply lookup_lt_Some; eauto).
  destruct Hstep as [tk w|pick w w2 Hs|c0 ctx pick w _|ev w|tok exp w _|d w _
                    |rate interval w|w].
  - unfold tick. destruct (tickers w !! tk) as [t|]; [|done].
    by destruct (tk_stopped t).
  - unfold limiter_step in Hs. unfold receiver_on in Hrecv.
    destruct (loop w) as [|tk|i|i|i c'|] eqn:Hpc.
    + destruct (tickers w !! _); injection Hs as <-;
        repeat split; simpl; done.
    + destruct (tk_pending _), (closing w), pick; try discriminate;
        injection Hs as <-; repeat split; simpl; done.
    + destruct (Nat.ltb i _); injection Hs as <-; repeat split; simpl; done.
    + injection Hs as <-. repeat split; simpl; [done..|].
      unfold receiver_on. simpl. by apply Nat.eqb_neq.
    + apply Nat.eqb_neq in Hrecv. unfold chan_recv in Hs.
      destruct (chans w !! c') as [[cp ln cl]|]; [|discriminate].
      simpl in Hs. destruct ln as [|ln].
      * destruct cl; [|discriminate]. injection Hs as <-.
        repeat split; simpl; done.
      * injection Hs as <-. repeat split; simpl; [|done..].
        by rewrite list_lookup_insert_ne.
    + discriminate.
  - unfold getLimiter_on, send_ready, chan_send.
    destruct (chans w !! c0) as [[cp ln cl]|] eqn:Hc0; simpl;
      [|by destruct ctx].
    destruct cl; simpl; [by destruct ctx as [e|]; [destruct pick|]|].
    destruct (Nat.eqb_spec cp 0) as [->|Hcp].
    + unfold receiver_on at 1.
      destruct (loop w) as [| | | |i c'|] eqn:Hpc; try (by destruct ctx).
      destruct (Nat.eqb_spec c0 c') as [->|Hne']; [|by destruct ctx].
      assert (stranded c n (set_loop (LCheck (S i)) w))
        by (repeat split; simpl; done).
      by destruct ctx as [e|]; [destruct pick|].
    + destruct (Nat.ltb_spec ln cp) as [Hroom|Hfull]; [|by destruct ctx].
      assert (Hc0c : c0 ≠ c).
      { intros ->. rewrite Hc in Hc0. injection Hc0 as -> ->. lia. }
      assert (stranded c n (set_chans (<[c0 := Chan cp (S ln) false]> (chans w)) w)).
      { repeat split; simpl; [|done..]. by rewrite list_lookup_insert_ne. }
      by destruct ctx as [e|]; [destruct pick|].
  - done.
  - done.
  - done.
  - unfold SetLimiter. destruct (closing w); [done|].
    destruct (interval <=? 0); [done|]. simpl.
    repeat split; simpl; [by rewrite lookup_app_l|lia|done].
  - unfold Close. destruct (closing w); [done|].
    destruct (tickers w !! _) as [t|]; [|done]. simpl.
    destruct (chans w !! limiterChan (eb w)) as [ch|]; [|done].
    destruct (ch_closed ch); [done|]. simpl.
    repeat split; simpl; [|done..]. by rewrite list_lookup_insert_ne.
Qed.

(** X4. A [SetLimiter] that comes while the pool is full strands the callers
    that are blocked on it: the old channel stays full whatever the client
    is asked to do afterwards (the goroutine drains the new pool only), so
    that a caller parked on it stays blocked until its own cancellation
    fires. *)
Theorem SetLimiter_strands_blocked_callers (senders : nat → Prop)
    (w w1 w' : World) (n rate : nat) (interval : Z) :
  chans w !! limiterChan (eb w) = Some (Chan n n false) →
  receiver_on (limiterChan (eb w)) w = false →
  SetLimiter rate interval w = Ok tt w1 →
  rtc (step senders) w1 w' →
  chans w' !! limiterChan (eb w) = Some (Chan n n false)
  ∧ (∀ pick, getLimiter_on (limiterChan (eb w)) None pick w' = Blocked w')
  ∧ (∀ e pick, getLimiter_on (limiterChan (eb w)) (Some e) pick w' = Err e w').
Proof.
  intros Hc Hrecv Hset Hsteps.
  assert (Hlt : (limiterChan (eb w) < length (chans w))%nat)
    by (eapply lookup_lt_Some; eauto).
  assert (H1 : stranded (limiterChan (eb w)) n w1).
  { unfold SetLimiter in Hset. destruct (closing w); [discriminate|].
    destruct (interval <=? 0); [discriminate|]. injection Hset as <-.
    repeat split; simpl; [by rewrite lookup_app_l|lia|done]. }
  assert (H' : stranded (limiterChan (eb w)) n w').
  { clear Hset. induction Hsteps as [w1|w1 w2 w3 Hs _ IH]; [done|].
    apply IH. by eapply stranded_step. }
  destruct H' as (Hc' & _ & Hrecv').
  assert (Hnr : send_ready (limiterChan (eb w)) w' = false).
  { unfold send_ready. rewrite Hc'. simpl.
    destruct (Nat.eqb n 0); [done|]. apply Nat.ltb_irrefl. }
  split; [done|]. unfold getLimiter_on. by rewrite Hnr.
Qed.

Lemma SetLimiter_strands_blocked_callers_witness :
  let w := world_of (getLimiter None true (limiter_run 1 fresh)) in
  let w1 := world_of (SetLimiter 3 Second w) in
  let w' := limiter_run 100 (tick 0 w1) in
  chans w' !! limiterChan (eb w) = Some (Chan 1 1 false)
  ∧ (∀ pick, getLimiter_on (limiterChan (eb w)) None pick w' = Blocked w')
  ∧ (∀ e pick, getLimiter_on (limiterChan (eb w)) (Some e) pick w' = Err e w').
Proof.
  intros w w1 w'.
  apply (SetLimiter_strands_blocked_callers (λ _, True) w w1 w' 1 3 Second);
    try reflexivity.
  eapply rtc_l; [apply (step_tick _ 0)|].
  eapply rtc_l; [by apply (step_limiter _ true)|].
  eapply rtc_l; [by apply (step_limiter _ true)|].
  eapply rtc_l; [by apply (step_limiter _ true)|].
  apply rtc_refl.
Defined.

(** X5. [SetLimiter] does not carry the permits of the running window over:
    the pool it installs is empty, whatever the occupancy of the pool it
    replaces, and [rate] callers are admitted on it at once. *)
Theorem SetLimiter_opens_fresh_pool (w w1 : World) (rate : nat) (interval : Z)
    (picks : list bool) :
  SetLimiter rate interval w = Ok tt w1 →
  length picks = rate →
  occupancy w1 = 0%nat ∧ capacity w1 = rate
  ∧ 0 < interval
  ∧ ∃ wN, acquire_seq picks w1 = Some wN ∧ occupancy wN = rate.
Proof.
  unfold SetLimiter. destruct (closing w); [discriminate|].
  destruct (Z.leb_spec interval 0) as [|Hpos]; [discriminate|].
  intros [= <-] Hlen.
  set (w1 := set_eb _ _).
  assert (Hc : chans w1 !! limiterChan (eb w1) = Some (Chan rate 0 false))
    by (simpl; by rewrite lookup_app_r, Nat.sub_diag).
  unfold occupancy, capacity. rewrite (chan_at_lookup _ _ _ Hc). simpl.
  repeat split; [done|].
  eexists. split; [apply (acquire_seq_fill picks w1 rate 0 Hc); lia|].
  simpl. unfold chan_at. simpl.
  rewrite list_lookup_insert_eq by (rewrite length_app; simpl; lia).
  simpl. lia.
Qed.

Lemma SetLimiter_opens_fresh_pool_witness :
  let w := world_of (getLimiter None true (limiter_run 1 fresh)) in
  occupancy w = 1%nat
  ∧ occupancy (world_of (SetLimiter 2 Second w)) = 0%nat
  ∧ capacity (world_of (SetLimiter 2 Second w)) = 2%nat
  ∧ 0 < Second
  ∧ ∃ wN, acquire_seq [true; false] (world_of (SetLimiter 2 Second w)) = Some wN
          ∧ occupancy wN = 2%nat.
Proof.
  intros w. split; [reflexivity|].
  apply (SetLimiter_opens_fresh_pool w _ 2 Second [true; false]); reflexivity.
Defined.

(** ** More on the token cache *)

(** X6. [RefreshToken] returns nil, leaving the world [w'], exactly when the
    limiter admits it (leaving [w1]), no [Close] holds the lock, and the
    answer has a success status and a body that decodes to a token that is
    not blank; [w'] is then [w1] with the two log entries and with the token
    cached as it came, not trimmed, expiring [expires_in] seconds after the
    clock reading, and nothing else of the client touched. *)
Theorem RefreshToken_succeeds_iff (ttl : Z) (re : refresh_env) (w w' : World) :
  RefreshToken ttl re w = Ok tt w'
  ↔ (∃ w1 res resp,
       getLimiter (r_ctx re) (r_pick re) w = Ok tt w1
       ∧ closing w = false
       ∧ r_http re = Response res ∧ res_OK res = true
       ∧ res_JSON res = inl resp
       ∧ strings.TrimSpace (AccessToken resp) ≠ EmptyString
       ∧ w' = set_eb (set_token (AccessToken resp)
                        (Add (r_now re) (seconds (ExpiresIn resp))) (eb w))
                (log EvPost (log (EvRefreshToken ttl) w1))).
Proof.
  split.
  - unfold RefreshToken, GetBaseClient. rewrite getLimiter_log.
    case_limiter (r_ctx re) (r_pick re) w; try discriminate.
    destruct (closing w0) eqn:Hcl; simpl; [discriminate|].
    destruct (r_http re) as [e|res]; simpl; [discriminate|].
    destruct (res_OK res) eqn:Hok; simpl; [|discriminate].
    destruct (res_JSON res) as [resp|e] eqn:Hjs; simpl; [|discriminate].
    destruct (_ <? 1)%nat eqn:Hlen; simpl; [discriminate|].
    rewrite Hcl. intros [= <-]. exists w0, res, resp. rewrite He.
    repeat split; try done.
    intros Hemp. rewrite Hemp in Hlen. discriminate Hlen.
  - intros (w1 & res & resp & Hadm & Hcl & Hhttp & Hok & Hjs & Htok & ->).
    destruct (getLimiter_frame (r_ctx re) (r_pick re) w) as (He & Hc & _ & _).
    rewrite Hadm in He, Hc. simpl in He, Hc.
    unfold RefreshToken, GetBaseClient. rewrite getLimiter_log, Hadm. simpl.
    rewrite Hc, Hcl, Hhttp. simpl. rewrite Hok, Hjs. simpl.
    destruct (strings.TrimSpace (AccessToken resp)) as [|c t] eqn:Hts; [done|].
    simpl. by rewrite Hc, Hcl, He.
Qed.

(** X7. The expiry is computed in int64 nanoseconds: for an [expires_in]
    between 9223372037 and 18446744073 seconds the product wraps around to
    a negative duration, and the token a successful refresh has just cached
    is already expired at the instant of the commit. *)
Theorem large_expires_in_wraps (ttl : Z) (re : refresh_env) (w w' : World)
    (res : response) (resp : refreshTokenResp) :
  RefreshToken ttl re w = Ok tt w' →
  r_http re = Response res → res_JSON res = inl resp →
  9223372037 ≤ ExpiresIn resp ≤ 18446744073 →
  seconds (ExpiresIn resp) = ExpiresIn resp * Second - 2 ^ 64
  ∧ accessTokenExpiresAt (eb w') < r_now re
  ∧ ∀ now, r_now re ≤ now → stale now w' = true.
Proof.
  intros Hok Hhttp Hjs Hrange.
  destruct (RefreshToken_Ok_inv _ _ _ _ Hok)
    as (res' & resp' & Hhttp' & _ & Hjs' & _ & _ & Hx & _).
  rewrite Hhttp in Hhttp'. injection Hhttp' as <-.
  rewrite Hjs in Hjs'. injection Hjs' as <-.
  assert (Hs : seconds (ExpiresIn resp) = ExpiresIn resp * Second - 2 ^ 64).
  { unfold seconds, wrap64, Second.
    replace (ExpiresIn resp * 1000000000 + 2 ^ 63)
      with (ExpiresIn resp * 1000000000 - 2 ^ 63 + 1 * 2 ^ 64) by lia.
    rewrite Z.mod_add by lia. rewrite Z.mod_small; lia. }
  assert (Hlt : accessTokenExpiresAt (eb w') < r_now re).
  { rewrite Hx, Hs. unfold Add, Second. lia. }
  repeat split; [done..|].
  intros now Hnow. unfold stale, Before. apply orb_true_iff. left.
  apply Z.ltb_lt. lia.
Qed.

Lemma large_expires_in_wraps_witness :
  let resp := mkResp "8be024f0" "T" 9223372037 in
  let res := mkResponse true "200 OK" "..." (inl resp) in
  let re := mkRefreshEnv None true (Response res) 1001 in
  let w' := world_of (RefreshToken 0 re roomy) in
  seconds (ExpiresIn resp) = ExpiresIn resp * Second - 2 ^ 64
  ∧ accessTokenExpiresAt (eb w') < r_now re
  ∧ ∀ now, r_now re ≤ now → stale now w' = true.
Proof.
  intros resp res re w'.
  apply (large_expires_in_wraps 0 re roomy w' res resp); try reflexivity.
  simpl. lia.
Defined.

(** An acquisition on an open buffered pool that is full blocks a caller
    whose context is live. *)
Lemma getLimiter_full (p : bool) (w : World) (n : nat) :
  chans w !! limiterChan (eb w) = Some (Chan (S n) (S n) false) →
  getLimiter None p w = Blocked w.
Proof.
  intros Hc. unfold getLimiter, getLimiter_on, send_ready.
  rewrite Hc. simpl. by rewrite Nat.ltb_irrefl.
Qed.

(** X8. A [GetAccessClient] that has to refresh takes two permits, its own and
    the one of the [GetBaseClient] inside [RefreshToken]. While the
    goroutine is not receiving from the pool (no reset in flight, so that
    every send goes into the buffer): with two free slots the call comes
    back (with the handle or with the error of the exchange) and the
    occupancy has grown by two; with one free slot only it parks inside
    [RefreshToken], holding the last slot, before any request is sent. *)
Theorem refreshing_GetAccessClient_takes_two_permits (ae : access_env)
    (w : World) (n k : nat) :
  chans w !! limiterChan (eb w) = Some (Chan n k false) →
  receiver_on (limiterChan (eb w)) w = false →
  closing w = false →
  a_ctx ae = None → r_ctx (a_refresh ae) = None →
  stale (a_now ae) w = true →
  ((k + 2 ≤ n)%nat →
   occupancy (world_of (GetAccessClient ae w)) = (k + 2)%nat
   ∧ ((∃ c w', GetAccessClient ae w = Ok c w')
      ∨ (∃ e w', GetAccessClient ae w = Err e w')))
  ∧ ((k + 1 = n)%nat →
     GetAccessClient ae w
     = Blocked (log (EvRefreshToken 0)
                  (set_chans (<[limiterChan (eb w) := Chan n n false]> (chans w)) w))).
Proof.
  intros Hc _ Hcl Hctx Hrctx Hstale.
  assert (Hlt : (limiterChan (eb w) < length (chans w))%nat)
    by (eapply lookup_lt_Some; eauto).
  set (w1 := set_chans (<[limiterChan (eb w) := Chan n (S k) false]> (chans w)) w).
  assert (Hc1 : chans w1 !! limiterChan (eb w1) = Some (Chan n (S k) false))
    by (simpl; by rewrite list_lookup_insert_eq).
  split.
  - intros Hroom. unfold GetAccessClient.
    rewrite Hctx, (getLimiter_room _ w n k Hc) by lia. fold w1.
    change (closing w1) with (closing w). rewrite Hcl.
    change (Before _ _ || _) with (stale (a_now ae) w). rewrite Hstale.
    unfold RefreshToken, GetBaseClient.
    rewrite getLimiter_log, Hrctx, (getLimiter_room _ w1 n (S k) Hc1) by lia.
    simpl. rewrite Hcl. simpl.
    assert (Hocc : ∀ (w2 : World),
      limiterChan (eb w2) = limiterChan (eb w) →
      chans w2 = <[limiterChan (eb w) := Chan n (S (S k)) false]> (chans w1) →
      occupancy w2 = (k + 2)%nat).
    { intros w2 He Hcs. unfold occupancy, chan_at. rewrite He, Hcs. simpl.
      rewrite list_lookup_insert_eq by (by rewrite length_insert). simpl. lia. }
    destruct (r_http (a_refresh ae)) as [e|res];
      [split; [by apply Hocc|right; eauto]|].
    destruct (res_OK res); cbn [negb];
      [|split; [by apply Hocc|right; eauto]].
    destruct (res_JSON res) as [resp|e];
      [|split; [by apply Hocc|right; eauto]].
    destruct (_ <? 1)%nat; [split; [by apply Hocc|right; eauto]|].
    rewrite Hcl. split; [by apply Hocc|left; eauto].
  - intros Hlast. clear Hc1. subst w1.
    assert (Hn : n = S k) by lia. clear Hlast. subst n.
    unfold GetAccessClient.
    rewrite Hctx, (getLimiter_room _ w (S k) k Hc) by lia.
    set (w1 := set_chans _ w).
    assert (Hc1 : chans w1 !! limiterChan (eb w1) = Some (Chan (S k) (S k) false))
      by (simpl; by rewrite list_lookup_insert_eq).
    change (closing w1) with (closing w). rewrite Hcl.
    change (Before _ _ || _) with (stale (a_now ae) w). rewrite Hstale.
    unfold RefreshToken, GetBaseClient.
    by rewrite getLimiter_log, Hrctx, (getLimiter_full _ w1 k Hc1).
Qed.

Lemma refreshing_GetAccessClient_takes_two_permits_witness :
  let w := limiter_run 1 fresh in
  GetAccessClient grant0 w
  = Blocked (log (EvRefreshToken 0)
               (set_chans (<[limiterChan (eb w) := Chan 1 1 false]> (chans w)) w))
  ∧ occupancy (world_of (GetAccessClient grant0 roomy)) = 2%nat.
Proof.
  intros w. split.
  - apply (proj2 (refreshing_GetAccessClient_takes_two_permits grant0 w 1 0
                    eq_refl eq_refl eq_refl eq_refl eq_refl eq_refl)).
    reflexivity.
  - apply (proj1 (refreshing_GetAccessClient_takes_two_permits grant0 roomy 4 0
                    eq_refl eq_refl eq_refl eq_refl eq_refl eq_refl)).
    simpl. lia.
Defined.

(** the token stays stale as time goes by *)
Lemma stale_mono (now now' : Time) (w : World) :
  now ≤ now' → stale now w = true → stale now' w = true.
Proof.
  unfold stale, Before. intros Hle Hs.
  apply orb_true_iff in Hs as [Hs|Hs]; apply orb_true_iff; [left|by right].
  apply Z.ltb_lt in Hs. apply Z.ltb_lt. lia.
Qed.

(** X9. A failed exchange is not remembered.  When [GetAccessClient] has to
    refresh and the exchange fails, it returns the error of
    [RefreshToken] behind one more [refresh token error: ] prefix, the
    cached token and expiry stay as they were, and the next admitted call,
    at that instant or later, enters [RefreshToken] again. *)
Theorem failed_exchange_is_retried (ae : access_env) (w w1 w2 : World) :
  stale (a_now ae) w = true →
  closing w = false →
  getLimiter (a_ctx ae) (a_pick ae) w = Ok tt w1 →
  getLimiter (r_ctx (a_refresh ae)) (r_pick (a_refresh ae)) w1 = Ok tt w2 →
  refresh_failure (r_http (a_refresh ae)) →
  ∃ inner w',
    RefreshToken 0 (a_refresh ae) w1 = Err inner w'
    ∧ GetAccessClient ae w = Err ("refresh token error: " +:+ inner) w'
    ∧ eb w' = eb w
    ∧ ∀ ae' w3,
        a_now ae ≤ a_now ae' →
        getLimiter (a_ctx ae') (a_pick ae') w' = Ok tt w3 →
        refreshes (trace (world_of (GetAccessClient ae' w')))
        = S (refreshes (trace w')).
Proof.
  intros Hstale Hcl Hadm Hadm' Hfail.
  destruct (getLimiter_frame (a_ctx ae) (a_pick ae) w) as (He & Hc & _).
  rewrite Hadm in He, Hc. simpl in He, Hc.
  destruct (getLimiter_frame (r_ctx (a_refresh ae)) (r_pick (a_refresh ae)) w1)
    as (He' & Hc' & _).
  rewrite Hadm' in He', Hc'. simpl in He', Hc'.
  assert (Hinner : ∃ inner,
    RefreshToken 0 (a_refresh ae) w1
    = Err inner (log EvPost (log (EvRefreshToken 0) w2))).
  { unfold RefreshToken, GetBaseClient. rewrite getLimiter_log, Hadm'. simpl.
    rewrite Hc', Hc, Hcl.
    destruct Hfail as [e|res Hok|res e Hok Hjs|res resp Hok Hjs Hemp];
      rewrite ?Hok, ?Hjs, ?Hemp; simpl; eauto. }
  destruct Hinner as [inner Hinner].
  exists inner, (log EvPost (log (EvRefreshToken 0) w2)).
  split; [done|]. split; [|split].
  - unfold GetAccessClient. rewrite Hadm, Hc, Hcl.
    change (Before _ _ || _) with (stale (a_now ae) w1).
    unfold stale. rewrite He. fold (stale (a_now ae) w). rewrite Hstale.
    by rewrite Hinner.
  - simpl. congruence.
  - intros ae' w3 Hlater Hadm3.
    eapply GetAccessClient_refreshes_once; [done| |].
    + simpl. congruence.
    + simpl. rewrite He', He.
      by apply (stale_mono (a_now ae) (a_now ae') w).
Qed.

Lemma failed_exchange_is_retried_witness :
  let ae := mkAccessEnv None true 1000
              (mkRefreshEnv None true
                 (Response (mkResponse false "401 Unauthorized" "invalid_client"
                              (inr "unexpected end of JSON input")))
                 1001) in
  ∃ inner w',
    RefreshToken 0 (a_refresh ae) (world_of (getLimiter None true roomy))
    = Err inner w'
    ∧ GetAccessClient ae roomy = Err ("refresh token error: " +:+ inner) w'
    ∧ eb w' = eb roomy
    ∧ ∀ ae' w3,
        a_now ae ≤ a_now ae' →
        getLimiter (a_ctx ae') (a_pick ae') w' = Ok tt w3 →
        refreshes (trace (world_of (GetAccessClient ae' w')))
        = S (refreshes (trace w')).
Proof.
  intros ae.
  apply (failed_exchange_is_retried ae roomy
           (world_of (getLimiter None true roomy))
           (world_of (getLimiter None true (world_of (getLimiter None true roomy)))));
    try reflexivity.
  apply fail_status. reflexivity.
Defined.

(** ** The push calls *)

(** With a token that is still good, an admitted [GetAccessClient] hands
    out the handle and has taken one permit. *)
Lemma GetAccessClient_valid_room (ae : access_env) (w : World) (n k : nat) :
  chans w !! limiterChan (eb w) = Some (Chan n k false) →
  (k < n)%nat →
  closing w = false → a_ctx ae = None →
  stale (a_now ae) w = false →
  let w1 := set_chans (<[limiterChan (eb w) := Chan n (S k) false]> (chans w)) w in
  GetAccessClient ae w = Ok (Bearer w1) w1.
Proof.
  intros Hc Hk Hcl Hctx Hfresh w1. unfold GetAccessClient.
  rewrite Hctx, (getLimiter_room _ w n k Hc) by done. fold w1.
  change (closing w1) with (closing w). rewrite Hcl.
  change (Before _ _ || _) with (stale (a_now ae) w). by rewrite Hfresh.
Qed.

(** A handle is only handed out while no [Close] holds the lock. *)
Lemma GetAccessClient_Ok_free (ae : access_env) (w w1 : World) (c : Client) :
  GetAccessClient ae w = Ok c w1 → closing w1 = false.
Proof.
  unfold GetAccessClient.
  destruct (getLimiter _ _ w) as [[] w0|e w0|w0|m w0]; try discriminate.
  destruct (closing w0) eqn:Hcl; [discriminate|].
  destruct (_ || _).
  - destruct (RefreshToken 0 (a_refresh ae) w0) as [[] w2|e w2|w2|m w2] eqn:Hr;
      try discriminate.
    intros [= _ <-].
    by destruct (RefreshToken_Ok_inv _ _ _ _ Hr) as (? & ? & ? & ? & ? & ? & ? & ? & ? & ?).
  - by intros [= _ <-].
Qed.

(** X10. [PushSingle] counts the targets only after it has acquired its
    handle: a call with more than 100 targets never succeeds and never
    looks at an answer, but with a good token and room in the pool it has
    taken a permit before it returns the error; while the goroutine is not
    receiving from the pool (no reset in flight), that permit is in the
    buffer and the occupancy has grown by one. *)
Theorem PushSingle_counts_targets_after_acquiring (strategy : Z)
    (targets : list string) (msg : option PushMessage)
    (pe : push_env PushSingleRespData) (w : World) (n k : nat) :
  (100 < length targets)%nat →
  chans w !! limiterChan (eb w) = Some (Chan n k false) →
  (k < n)%nat →
  receiver_on (limiterChan (eb w)) w = false →
  closing w = false → a_ctx (p_access pe) = None →
  stale (a_now (p_access pe)) w = false →
  let w1 := set_chans (<[limiterChan (eb w) := Chan n (S k) false]> (chans w)) w in
  PushSingle strategy targets msg pe w
  = Err "push single error: targets length > 100" w1
  ∧ occupancy w1 = S k
  ∧ ∀ http, PushSingle strategy targets msg (mkPushEnv (p_access pe) http) w
            = PushSingle strategy targets msg pe w.
Proof.
  intros Hlen Hc Hk _ Hcl Hctx Hfresh w1.
  assert (Hlt : (limiterChan (eb w) < length (chans w))%nat)
    by (eapply lookup_lt_Some; eauto).
  assert (Hover : Nat.ltb 100 (length targets) = true) by (by apply Nat.ltb_lt).
  unfold PushSingle. simpl.
  rewrite (GetAccessClient_valid_room _ w n k Hc Hk Hcl Hctx Hfresh). fold w1.
  rewrite Hover. repeat split.
  unfold occupancy, chan_at. simpl. by rewrite list_lookup_insert_eq.
Qed.

Lemma PushSingle_counts_targets_after_acquiring_witness :
  let w := world_of (RefreshToken 0
                       (mkRefreshEnv None true
                          (Response (mkResponse true "200 OK" "..."
                                       (inl (mkResp "8be024f0" "T" 3600))))
                          1001) roomy) in
  let pe := mkPushEnv (mkAccessEnv None true 2000 (a_refresh later))
              (PushTransportError "unreachable") in
  let w1 := set_chans (<[limiterChan (eb w) := Chan 4 2 false]> (chans w)) w in
  PushSingle 3 (replicate 101 "user") None pe w
  = Err "push single error: targets length > 100" w1
  ∧ occupancy w1 = 2%nat
  ∧ ∀ http, PushSingle 3 (replicate 101 "user") None
              (mkPushEnv (p_access pe) http) w
            = PushSingle 3 (replicate 101 "user") None pe w.
Proof.
  intros w pe w1.
  apply (PushSingle_counts_targets_after_acquiring 3 (replicate 101 "user")
           None pe w 4 1); try reflexivity.
  - rewrite length_replicate. lia.
  - lia.
Defined.

Lemma scan_all_succeeded (data : list (option PushSyncRespData)) :
  scan_statuses data = AllSuccess ↔ Forall succeeded data.
Proof.
  induction data as [|[v|] data IH]; simpl.
  - split; [constructor|done].
  - destruct (String.eqb_spec (PushStatus v) "SUCCESS") as [Heq|Hne].
    + rewrite IH. split.
      * intros Hall. constructor; [by exists v|done].
      * by intros [_ Hall]%Forall_cons_1.
    + split; [discriminate|].
      intros [(v' & [= <-] & Hs) _]%Forall_cons_1. done.
  - split; [discriminate|].
    intros [(v' & Hv & _) _]%Forall_cons_1. discriminate.
Qed.

Lemma scan_first_failure (pre post : list (option PushSyncRespData))
    (v : PushSyncRespData) :
  Forall succeeded pre → PushStatus v ≠ "SUCCESS" →
  scan_statuses (pre ++ Some v :: post) = Failed (PushStatus v).
Proof.
  intros Hpre Hv. induction Hpre as [|o pre (v' & -> & Hs) _ IH]; simpl.
  - by destruct (String.eqb_spec (PushStatus v) "SUCCESS").
  - rewrite Hs. exact IH.
Qed.

Lemma scan_first_nil (pre post : list (option PushSyncRespData)) :
  Forall succeeded pre → scan_statuses (pre ++ None :: post) = NilEntry.
Proof.
  intros Hpre. induction Hpre as [|o pre (v' & -> & Hs) _ IH]; simpl; [done|].
  rewrite Hs. exact IH.
Qed.

(** X11. What [PushSync] makes of a decoded answer: it hands the answer back
    exactly when every entry of [data] reports SUCCESS (an empty [data]
    included); otherwise it stops at the first entry that does not, with
    an error that carries the status of that entry, or with a nil pointer
    panic when that entry is a JSON null. *)
Theorem PushSync_reads_statuses (strategy : Z) (target : string)
    (msg : option PushMessage) (pe : push_env PushSyncRespData) (w w1 : World)
    (c : Client) (res : push_response PushSyncRespData)
    (resp : PushRespCommon PushSyncRespData) :
  GetAccessClient (p_access pe) w = Ok c w1 →
  p_http pe = PushResponse res → pr_OK res = true → pr_JSON res = inl resp →
  (PushSync strategy target msg pe w = Ok resp w1 ↔ Forall succeeded (Data resp))
  ∧ (∀ pre v post,
       Data resp = pre ++ Some v :: post → Forall succeeded pre →
       PushStatus v ≠ "SUCCESS" →
       PushSync strategy target msg pe w
       = Err ("push sync error: " +:+ PushStatus v) w1)
  ∧ (∀ pre post,
       Data resp = pre ++ None :: post → Forall succeeded pre →
       PushSync strategy target msg pe w
       = Panic "runtime error: invalid memory address or nil pointer dereference" w1).
Proof.
  intros Hget Hhttp Hok Hjs.
  pose proof (GetAccessClient_Ok_free _ _ _ _ Hget) as Hfree.
  unfold PushSync. rewrite Hget, Hfree, Hhttp, Hok, Hjs. simpl.
  repeat split.
  - intros Hres. apply scan_all_succeeded.
    by destruct (scan_statuses (Data resp)).
  - intros Hall%scan_all_succeeded. by rewrite Hall.
  - intros pre v post -> Hpre Hv. by rewrite scan_first_failure.
  - intros pre post -> Hpre. by rewrite scan_first_nil.
Qed.

Lemma PushSync_reads_statuses_witness :
  let resp := mkPushResp 1700000000000
                [Some (mkSyncData "SUCCESS" None); Some (mkSyncData "FAIL" None);
                 None] 12 in
  let pe := mkPushEnv caller
              (PushResponse (mkPushResponse true "200 OK" "..." (inl resp))) in
  let w1 := world_of (GetAccessClient caller tokened) in
  (PushSync 3 "user1" None pe tokened = Ok resp w1 ↔ Forall succeeded (Data resp))
  ∧ (∀ pre v post,
       Data resp = pre ++ Some v :: post → Forall succeeded pre →
       PushStatus v ≠ "SUCCESS" →
       PushSync 3 "user1" None pe tokened
       = Err ("push sync error: " +:+ PushStatus v) w1)
  ∧ (∀ pre post,
       Data resp = pre ++ None :: post → Forall succeeded pre →
       PushSync 3 "user1" None pe tokened
       = Panic "runtime error: invalid memory address or nil pointer dereference" w1).
Proof.
  intros resp pe w1.
  apply (PushSync_reads_statuses 3 "user1" None pe tokened w1 (Bearer w1)
           (mkPushResponse true "200 OK" "..." (inl resp)) resp);
    reflexivity.
Defined.

(** X12. [PushSingle] does not read the statuses: with at most 100 targets, a
    handle and an answer that decodes, it hands the answer back whatever
    its entries say, where [PushSync] refuses an answer with an entry that
    is not SUCCESS. *)
Theorem PushSingle_returns_any_decoded_answer (strategy : Z)
    (targets : list string) (msg : option PushMessage)
    (pe : push_env PushSingleRespData) (w w1 : World) (c : Client)
    (res : push_response PushSingleRespData)
    (resp : PushRespCommon PushSingleRespData) :
  (length targets ≤ 100)%nat →
  GetAccessClient (p_access pe) w = Ok c w1 →
  p_http pe = PushResponse res → pr_OK res = true → pr_JSON res = inl resp →
  PushSingle strategy targets msg pe w = Ok resp w1.
Proof.
  intros Hlen Hget Hhttp Hok Hjs.
  pose proof (GetAccessClient_Ok_free _ _ _ _ Hget) as Hfree.
  assert (Hin : Nat.ltb 100 (length targets) = false) by (apply Nat.ltb_ge; lia).
  unfold PushSingle. by rewrite Hget, Hin, Hfree, Hhttp, Hok, Hjs.
Qed.

Lemma PushSingle_returns_any_decoded_answer_witness :
  let resp := mkPushResp 1700000000000
                [Some (mkSingleData "FAIL" "failed" "no device token")] 12 in
  let pe := mkPushEnv caller
              (PushResponse (mkPushResponse true "200 OK" "..." (inl resp))) in
  PushSingle 3 (replicate 100 "user") None pe tokened
  = Ok resp (world_of (GetAccessClient caller tokened)).
Proof.
  intros resp pe.
  apply (PushSingle_returns_any_decoded_answer 3 (replicate 100 "user") None pe
           tokened _ (Bearer (world_of (GetAccessClient caller tokened)))
           (mkPushResponse true "200 OK" "..." (inl resp)) resp);
    try reflexivity.
Defined.

(** X13. A push whose caller gives up while the pool is full sends nothing and
    leaves nothing behind: both calls return the cancellation error behind
    the prefix [get client error: ], and the world is as it was. *)
Theorem cancelled_push_leaves_no_trace (strategy : Z) (target : string)
    (targets : list string) (msg : option PushMessage)
    (ps : push_env PushSyncRespData) (pm : push_env PushSingleRespData)
    (w : World) (e : error) :
  send_ready (limiterChan (eb w)) w = false →
  a_ctx (p_access ps) = Some e → a_ctx (p_access pm) = Some e →
  PushSync strategy target msg ps w = Err ("get client error: " +:+ e) w
  ∧ PushSingle strategy targets msg pm w = Err ("get client error: " +:+ e) w.
Proof.
  intros Hnr Hs Hm.
  unfold PushSync, PushSingle, GetAccessClient, getLimiter, getLimiter_on.
  by rewrite Hnr, Hs, Hm.
Qed.

Lemma cancelled_push_leaves_no_trace_witness :
  let w := world_of (getLimiter None true (limiter_run 1 fresh)) in
  let gone := mkAccessEnv (Some Canceled) true 2000 (a_refresh later) in
  PushSync 3 "user1" None (mkPushEnv gone (PushTransportError "unreachable")) w
  = Err ("get client error: " +:+ Canceled) w
  ∧ PushSingle 3 ["user1"] None (mkPushEnv gone (PushTransportError "unreachable")) w
    = Err ("get client error: " +:+ Canceled) w.
Proof.
  intros w gone.
  apply (cancelled_push_leaves_no_trace 3 "user1" ["user1"] None
           (mkPushEnv gone (PushTransportError "unreachable"))
           (mkPushEnv gone (PushTransportError "unreachable")) w Canceled);
    reflexivity.
Defined.

(** ** More on shutdown and on the timeout *)

Lemma env_step_tickers (w w' : World) :
  env_step w w' → length (tickers w') = length (tickers w).
Proof.
  intros Hstep. destruct Hstep as [tk w|pick w w' Hs].
  - unfold tick. destruct (tickers w !! tk) as [t|]; [|done].
    destruct (tk_stopped t); [done|]. simpl. by rewrite length_insert.
  - unfold limiter_step in Hs.
    destruct (loop w) as [|tk|i|i|i c|].
    + destruct (tickers w !! _); by injection Hs as <-.
    + destruct (tk_pending _), (closing w), pick; try discriminate;
        injection Hs as <-; simpl; by rewrite ?length_insert.
    + destruct (Nat.ltb i _); by injection Hs as <-.
    + by injection Hs as <-.
    + unfold chan_recv in Hs.
      destruct (chans w !! c) as [[cp [|ln] cl]|]; try discriminate.
      * destruct cl; [|discriminate]. by injection Hs as <-.
      * by injection Hs as <-.
    + discriminate.
Qed.

(** X14. [Close] is to be called once: after it has run, a second [Close]
    panics on the closed pool, having stopped the ticker again and touched
    nothing else. *)
Theorem second_Close_panics (w0 w : World) :
  after_Close w0 w →
  ∃ w', Close w = Panic "close of closed channel" w'
        ∧ chans w' = chans w ∧ eb w' = eb w ∧ closing w' = false.
Proof.
  intros Hafter. pose proof (after_Close_closed _ _ Hafter) as (ch & Hc & Hcl).
  destruct Hafter as (w1 & Hfree & HClose & Hsteps & Hfree' & _).
  assert (Htk : is_Some (tickers w !! limiterResetTicker (eb w))).
  { apply lookup_lt_is_Some.
    assert (H1 : (limiterResetTicker (eb w1) < length (tickers w1))%nat).
    { unfold Close in HClose. rewrite Hfree in HClose.
      destruct (tickers w0 !! limiterResetTicker (eb w0)) as [t|] eqn:Ht;
        [|discriminate].
      simpl in HClose.
      destruct (chans w0 !! _) as [ch0|]; [|discriminate].
      destruct (ch_closed ch0); [discriminate|]. injection HClose as <-.
      simpl. rewrite length_insert. by eapply lookup_lt_Some. }
    clear HClose Hc. induction Hsteps as [w1|w1 w2 w3 Hs _ IH]; [done|].
    apply IH; [done|].
    destruct (env_step_closed _ _ Hs) as (He & _).
    by rewrite He, (env_step_tickers _ _ Hs). }
  destruct Htk as [t Ht]. unfold Close. rewrite Hfree', Ht. simpl.
  rewrite Hc, Hcl. eauto.
Qed.

Lemma second_Close_panics_witness :
  ∃ w', Close shut = Panic "close of closed channel" w'
        ∧ chans w' = chans shut ∧ eb w' = eb shut ∧ closing w' = false.
Proof.
  apply (second_Close_panics (limiter_run 1 fresh) shut).
  eexists. split; [reflexivity|]. split; [reflexivity|].
  split; [|split; reflexivity].
  eapply rtc_l; [|apply rtc_refl].
  by apply (env_limiter true).
Defined.

(** X15. [Close] is answered as soon as the goroutine, parked at its select
    with no tick waiting, is scheduled: one step of the goroutine and
    [Close] has returned, the ticker of the client is stopped, the pool is
    closed and the goroutine is gone. *)
Theorem Close_returns_when_goroutine_idle (w : World) (tk : nat) (t t' : ticker)
    (ch : chan) (pick : bool) :
  closing w = false →
  loop w = LSelect tk → tickers w !! tk = Some t → tk_pending t = false →
  tickers w !! limiterResetTicker (eb w) = Some t' →
  chans w !! limiterChan (eb w) = Some ch → ch_closed ch = false →
  ∃ w1 w2,
    Close w = Blocked w1 ∧ limiter_step pick w1 = Some w2
    ∧ after_Close w w2
    ∧ tk_stopped (ticker_at (limiterResetTicker (eb w2)) w2) = true
    ∧ closed_at (limiterChan (eb w2)) w2
    ∧ eb w2 = eb w.
Proof.
  intros Hfree Hpc Htk Hpend Hcur Hc Hopen.
  assert (Hlt : (limiterChan (eb w) < length (chans w))%nat)
    by (eapply lookup_lt_Some; eauto).
  assert (Hltk : (limiterResetTicker (eb w) < length (tickers w))%nat)
    by (eapply lookup_lt_Some; eauto).
  unfold Close. rewrite Hfree, Hcur. simpl. rewrite Hc, Hopen.
  set (w1 := set_closing true _).
  assert (Hstep : limiter_step pick w1 = Some (set_loop LExit (set_closing false w1))).
  { unfold limiter_step. simpl. rewrite Hpc.
    assert (Hp : tk_pending (ticker_at tk w1) = false).
    { unfold ticker_at. simpl.
      destruct (decide (limiterResetTicker (eb w) = tk)) as [Heq|Hne].
      - rewrite Heq in *. rewrite list_lookup_insert_eq by done. simpl.
        rewrite Htk in Hcur. by injection Hcur as <-.
      - rewrite list_lookup_insert_ne by done. by rewrite Htk. }
    by rewrite Hp. }
  exists w1, (set_loop LExit (set_closing false w1)).
  repeat split; try done.
  - exists w1. repeat split; try done.
    + unfold Close. rewrite Hfree, Hcur. simpl. by rewrite Hc, Hopen.
    + by eapply rtc_once, env_limiter.
  - unfold ticker_at. simpl. by rewrite list_lookup_insert_eq.
  - unfold closed_at. simpl. rewrite list_lookup_insert_eq by done. eauto.
Qed.

Lemma Close_returns_when_goroutine_idle_witness :
  ∃ w1 w2,
    Close (limiter_run 1 fresh) = Blocked w1 ∧ limiter_step false w1 = Some w2
    ∧ after_Close (limiter_run 1 fresh) w2
    ∧ tk_stopped (ticker_at (limiterResetTicker (eb w2)) w2) = true
    ∧ closed_at (limiterChan (eb w2)) w2
    ∧ eb w2 = eb (limiter_run 1 fresh).
Proof.
  apply (Close_returns_when_goroutine_idle (limiter_run 1 fresh) 0
           (Ticker Second false false) (Ticker Second false false)
           (Chan 1 0 false) false);
    reflexivity.
Defined.

(** X16. [SetClientTimeout] changes the template and nothing else, and every
    handle handed out afterwards, plain or with the bearer header, carries
    the new timeout. *)
Theorem SetClientTimeout_reaches_later_handles (d : Z) (w w' : World) :
  SetClientTimeout d w = Ok tt w' →
  cl_headers (client (eb w')) = cl_headers (client (eb w))
  ∧ accessToken (eb w') = accessToken (eb w)
  ∧ accessTokenExpiresAt (eb w') = accessTokenExpiresAt (eb w)
  ∧ limiterChan (eb w') = limiterChan (eb w)
  ∧ limiterResetTicker (eb w') = limiterResetTicker (eb w)
  ∧ chans w' = chans w ∧ tickers w' = tickers w ∧ loop w' = loop w
  ∧ (∀ ctx pick c w'', GetBaseClient ctx pick w' = Ok c w'' →
       cl_timeout c = d ∧ cl_headers c = cl_headers (client (eb w)))
  ∧ (∀ ae c w'', GetAccessClient ae w' = Ok c w'' →
       cl_timeout c = d
       ∧ cl_headers c
         = ("Authorization", "Bearer " +:+ accessToken (eb w''))
           :: cl_headers (client (eb w))).
Proof.
  unfold SetClientTimeout. destruct (closing w); [discriminate|].
  intros [= <-].
  remember (set_eb (set_client (Timeout d (client (eb w))) (eb w)) w) as W eqn:HW.
  assert (Hcli : client (eb W) = Timeout d (client (eb w))) by (by subst W).
  assert (Hbase : ∀ ctx pick c w'', GetBaseClient ctx pick W = Ok c w'' →
            cl_timeout c = d ∧ cl_headers c = cl_headers (client (eb w))).
  { intros ctx pick c w''. unfold GetBaseClient.
    destruct (getLimiter_frame ctx pick W) as (He & _).
    destruct (getLimiter ctx pick W) as [[] w0|e0 w0|w0|m0 w0]; simpl in *;
      try discriminate.
    destruct (closing w0); [discriminate|]. intros [= <- <-].
    by rewrite He, Hcli. }
  assert (Hacc : ∀ ae c w'', GetAccessClient ae W = Ok c w'' →
            cl_timeout c = d
            ∧ cl_headers c
              = ("Authorization", "Bearer " +:+ accessToken (eb w''))
                :: cl_headers (client (eb w))).
  { intros ae c w''. unfold GetAccessClient.
    destruct (getLimiter_frame (a_ctx ae) (a_pick ae) W) as (He & _).
    destruct (getLimiter (a_ctx ae) (a_pick ae) W) as [[] w0|e0 w0|w0|m0 w0];
      simpl in *; try discriminate.
    destruct (closing w0); [discriminate|].
    destruct (_ || _).
    - destruct (RefreshToken 0 (a_refresh ae) w0) as [[] w2|e w2|w2|m w2] eqn:Hr;
        try discriminate.
      intros [= <- <-].
      destruct (RefreshToken_Ok_inv _ _ _ _ Hr)
        as (? & ? & _ & _ & _ & _ & _ & _ & Hcli' & _).
      unfold Bearer. simpl. by rewrite Hcli', He, Hcli.
    - intros [= <- <-]. unfold Bearer. simpl. by rewrite He, Hcli. }
  subst W. simpl in *. repeat split; try done.
  - by apply (Hbase ctx pick c w'').
  - by apply (Hbase ctx pick c w'').
  - by apply (Hacc ae c w'').
  - by apply (Hacc ae c w'').
Qed.

Lemma SetClientTimeout_reaches_later_handles_witness :
  let w' := world_of (SetClientTimeout (5 * Second) tokened) in
  cl_headers (client (eb w')) = cl_headers (client (eb tokened))
  ∧ accessToken (eb w') = accessToken (eb tokened)
  ∧ accessTokenExpiresAt (eb w') = accessTokenExpiresAt (eb tokened)
  ∧ limiterChan (eb w') = limiterChan (eb tokened)
  ∧ limiterResetTicker (eb w') = limiterResetTicker (eb tokened)
  ∧ chans w' = chans tokened ∧ tickers w' = tickers tokened
  ∧ loop w' = loop tokened
  ∧ (∀ ctx pick c w'', GetBaseClient ctx pick w' = Ok c w'' →
       cl_timeout c = 5 * Second
       ∧ cl_headers c = cl_headers (client (eb tokened)))
  ∧ (∀ ae c w'', GetAccessClient ae w' = Ok c w'' →
       cl_timeout c = 5 * Second
       ∧ cl_headers c
         = ("Authorization", "Bearer " +:+ accessToken (eb w''))
           :: cl_headers (client (eb tokened))).
Proof.
  intros w'.
  apply (SetClientTimeout_reaches_later_handles (5 * Second) tokened w').
  reflexivity.
Defined.

Lemma client_invariant_witness :
  let w := world_of (GetAccessClient grant0 (world_of (SetLimiter 4 Second fresh))) in
  wf w
  ∧ (occupancy w ≤ capacity w)%nat
  ∧ is_Some (chans w !! limiterChan (eb w))
  ∧ is_Some (tickers w !! limiterResetTicker (eb w))
  ∧ host (eb w) = "a1.easemob.com" ∧ orgName (eb w) = "org"
  ∧ appName (eb w) = "app" ∧ clientId (eb w) = "id"
  ∧ clientSecret (eb w) = "secret".
Proof.
  intros w.
  apply (client_invariant (λ _, False) "a1.easemob.com" "org" "app" "id" "secret"
           fresh w).
  - reflexivity.
  - eapply rtc_l; [apply (step_SetLimiter _ 4 Second)|].
    apply GetAccessClient_steps.
Defined.

Lemma reset_of_full_pool_witness :
  let w := world_of (getLimiter None true (limiter_run 1 fresh)) in
  let w' := limiter_run (3 * 1 + 2) (tick 0 w) in
  occupancy w = 1%nat
  ∧ occupancy w' = 0%nat ∧ loop w' = LTop
  ∧ ((0 < 1)%nat → ∀ pick, ∃ w'', getLimiter None pick w' = Ok tt w'').
Proof.
  intros w w'. split; [reflexivity|].
  apply (reset_of_full_pool w 1 0 (Ticker Second false false)); reflexivity.
Defined.

(** ** What a window admits *)

(** X17. However many callers ask, with whatever contexts, a pool on which no
    reset is in flight admits no more of them than it has free slots as
    long as the goroutine does not move, and its occupancy grows by the
    number it admits. *)
Theorem window_admits_at_most_free_slots (attempts : list (context * bool)) :
  ∀ (w : World) (n k : nat),
    chans w !! limiterChan (eb w) = Some (Chan n k false) →
    (k ≤ n)%nat →
    receiver_on (limiterChan (eb w)) w = false →
    (k + fst (admitted attempts w) ≤ n)%nat
    ∧ chans (snd (admitted attempts w)) !! limiterChan (eb w)
      = Some (Chan n (k + fst (admitted attempts w)) false)
    ∧ eb (snd (admitted attempts w)) = eb w.
Proof.
  induction attempts as [|[ctx pick] rest IH]; intros w n k Hc Hk Hrecv.
  - simpl. by rewrite Nat.add_0_r.
  - assert (Hlt : (limiterChan (eb w) < length (chans w))%nat)
      by (eapply lookup_lt_Some; eauto).
    assert (Hsame : ∀ o : outcome unit,
      getLimiter ctx pick w = o → world_of o = w →
      (∀ w', o ≠ Ok tt w') →
      (k + fst (admitted ((ctx, pick) :: rest) w) ≤ n)%nat
      ∧ chans (snd (admitted ((ctx, pick) :: rest) w)) !! limiterChan (eb w)
        = Some (Chan n (k + fst (admitted ((ctx, pick) :: rest) w)) false)
      ∧ eb (snd (admitted ((ctx, pick) :: rest) w)) = eb w).
    { intros o Ho Hw Hno. simpl. rewrite Ho.
      destruct o as [[] w'|e w'|w'|m w']; [by destruct (Hno w')|..];
        simpl in Hw; subst w'; by apply IH. }
    assert (Hsent :
      getLimiter ctx pick w
      = Ok tt (set_chans (<[limiterChan (eb w) := Chan n (S k) false]> (chans w)) w) →
      (k < n)%nat →
      (k + fst (admitted ((ctx, pick) :: rest) w) ≤ n)%nat
      ∧ chans (snd (admitted ((ctx, pick) :: rest) w)) !! limiterChan (eb w)
        = Some (Chan n (k + fst (admitted ((ctx, pick) :: rest) w)) false)
      ∧ eb (snd (admitted ((ctx, pick) :: rest) w)) = eb w).
    { intros Ho Hroom. simpl. rewrite Ho.
      set (w1 := set_chans _ w).
      destruct (IH w1 n (S k)) as (H1 & H2 & H3); [|lia|done|].
      { simpl. by rewrite list_lookup_insert_eq. }
      destruct (admitted rest w1) as [m w2]. simpl in *.
      rewrite Nat.add_succ_r. by repeat split. }
    unfold getLimiter, getLimiter_on, send_ready, chan_send in Hsame, Hsent.
    rewrite Hc, Hrecv in Hsame, Hsent. simpl in Hsame, Hsent.
    destruct (Nat.eqb_spec n 0) as [->|Hn].
    + destruct ctx as [e|]; by eapply Hsame.
    + destruct (Nat.ltb_spec k n) as [Hroom|Hfull].
      * destruct ctx as [e|]; [destruct pick|];
          [by apply Hsent|by eapply Hsame|by apply Hsent].
      * destruct ctx as [e|]; by eapply Hsame.
Qed.

Lemma window_admits_at_most_free_slots_witness :
  let w := limiter_run 1 (world_of (SetLimiter 2 Second fresh)) in
  let attempts := [(None, true); (Some Canceled, false); (None, false);
                   (Some DeadlineExceeded, true); (None, true)] in
  fst (admitted attempts w) = 2%nat
  ∧ (0 + fst (admitted attempts w) ≤ 2)%nat
  ∧ chans (snd (admitted attempts w)) !! limiterChan (eb w)
    = Some (Chan 2 (0 + fst (admitted attempts w)) false)
  ∧ eb (snd (admitted attempts w)) = eb w.
Proof.
  intros w attempts. split; [reflexivity|].
  apply (window_admits_at_most_free_slots attempts w 2 0); try reflexivity.
  lia.
Defined.
